(** * Tic-tac-toe: the rules and the computer player of [App.js]

    A shallow embedding of [src/tic_tac_toe_frontend/src/App.js]:
    [calculateWinner], [availableMoves], [computeAIMove] and the state
    transitions of the [App] component ([handleSquareClick], the effect that
    plays the computer's move, [resetBoard] and its callers).

    Conventions.
    - A cell of the board holds [null], ['X'] or ['O']: [cell := option mark],
      with [None] for [null].  A board is a JavaScript array of cells, here a
      list of any length; [initialBoard] has nine.
    - Reading [board[i]] gives a [value]: [undefined] past the end of the
      array, else the cell.  Truthiness and [===] are those of JavaScript on
      these values.
    - [Math.random()] is a parameter: a fraction [rnum / rden] in [[0, 1)].
    - A handler, the render that follows it and the effects of that render
      are one step of the component: nothing happens in between. *)

From stdpp Require Import base numbers list.

(** ** Marks, cells, boards *)

Inductive mark := X | O.

#[global] Instance mark_eq_dec : EqDecision mark.
Proof. solve_decision. Defined.

Abbreviation cell := (option mark).

Abbreviation Board := (list cell).

(** [Array(9).fill(null)] *)
Definition initialBoard : Board := replicate 9 None.

Definition LINES : list (nat * nat * nat) :=
  [ (0,1,2); (3,4,5); (6,7,8);   (* rows *)
    (0,3,6); (1,4,7); (2,5,8);   (* cols *)
    (0,4,8); (2,4,6) ].          (* diags *)

(** ** JavaScript values read from a board *)

Inductive value := undefined | null | str (m : mark).

#[global] Instance value_eq_dec : EqDecision value.
Proof. solve_decision. Defined.

Definition of_cell (c : cell) : value :=
  match c with Some m => str m | None => null end.

(** [board[i]] *)
Definition get (board : Board) (i : nat) : value :=
  match board !! i with Some c => of_cell c | None => undefined end.

(** [Boolean(v)]: only a mark is truthy. *)
Definition truthy (v : value) : bool :=
  match v with str _ => true | _ => false end.

(** [const copy = [...board]; copy[i] = m].  Every write of the program is
    within the array: [computeAIMove] writes at indices of [availableMoves]
    ([availableMoves_lt]), the computer's timeout at the index
    [computeAIMove] answered ([computeAIMove_empty]), and a click comes from
    a square that [Board] rendered for a cell ([enabled]).  The growth of a
    JavaScript array written past its end is therefore not modelled:
    [<[i:=_]>] leaves such a list as it is. *)
Definition copy_set (board : Board) (i : nat) (m : mark) : Board :=
  <[i := Some m]> board.

(** ** calculateWinner *)

(** The [winner] field: a mark, ['draw'] or [null]. *)
Inductive verdict := Won (m : mark) | Draw | NoWinner.

#[global] Instance verdict_eq_dec : EqDecision verdict.
Proof. solve_decision. Defined.

Record result := { winner : verdict; line : list nat }.

(** The body of the loop over [LINES]: the test
    [board[a] && board[a] === board[b] && board[b] === board[c]] and the
    returned object. *)
Definition line_check (board : Board) (l : nat * nat * nat) : option result :=
  let '(a, b, c) := l in
  match get board a with
  | str m =>
      if bool_decide (get board a = get board b)
         && bool_decide (get board b = get board c)
      then Some {| winner := Won m; line := [a; b; c] |}
      else None
  | _ => None
  end.

(** [for (const [a, b, c] of lines) { if (...) return {...}; }] *)
Fixpoint for_lines (lines : list (nat * nat * nat)) (board : Board)
  : option result :=
  match lines with
  | [] => None
  | l :: rest =>
      match line_check board l with
      | Some r => Some r
      | None => for_lines rest board
      end
  end.

Definition calculateWinner (board : Board) : result :=
  match for_lines LINES board with
  | Some r => r
  | None =>
      if forallb (λ c, truthy (of_cell c)) board
      then {| winner := Draw; line := [] |}
      else {| winner := NoWinner; line := [] |}
  end.

(** ** availableMoves *)

(** [board.map((v, i) => (v ? null : i)).filter(v => v !== null)] *)
Definition availableMoves (board : Board) : list nat :=
  omap id (imap (λ i v, if truthy (of_cell v) then None else Some i) board).

(** ** The random source *)

(** One draw of [Math.random()]: the fraction [rnum / rden], in [[0, 1)]. *)
Record rand := { rnum : nat; rden : nat; rand_lt_1 : rnum < rden }.

(** [Math.floor(Math.random() * n)] *)
Definition floor_random (r : rand) (n : nat) : nat := (rnum r * n) / rden r.

(** ** computeAIMove *)

(** [calculateWinner(copy).winner === m] after [copy[move] = m]. *)
Definition wins_with (board : Board) (m : mark) (move : nat) : bool :=
  bool_decide (winner (calculateWinner (copy_set board move m)) = Won m).

(** The result is [Some move], or [None] for [null].  The index into
    [corners] and [sides] is in range ([floor_random_lt]), so the lookup
    there never misses. *)
Definition computeAIMove (board : Board) (ai human : mark) (r : rand)
  : option nat :=
  let moves := availableMoves board in
  (* Win if possible *)
  match find (wins_with board ai) moves with
  | Some move => Some move
  | None =>
  (* Block human win *)
  match find (wins_with board human) moves with
  | Some move => Some move
  | None =>
  (* Center *)
  if bool_decide (get board 4 = null) then Some 4 else
  (* Corners *)
  let corners := filter (λ i, get board i = null) [0; 2; 6; 8] in
  if bool_decide (length corners ≠ 0)
  then corners !! floor_random r (length corners) else
  (* Sides *)
  let sides := filter (λ i, get board i = null) [1; 3; 5; 7] in
  if bool_decide (length sides ≠ 0)
  then sides !! floor_random r (length sides) else
  (* Fallback *)
  head moves
  end end.

(** ** The state of the [App] component

    The [useState] cells of [App] (the constant [theme] is left out), and the
    timeouts its effects have pending.  [boardId] is the identity of the array
    that [board] holds: every [setBoard] with a fresh array gives a new one,
    and React compares the dependencies of an effect by identity. *)

Inductive Mode := pvc | pvp.

#[global] Instance Mode_eq_dec : EqDecision Mode.
Proof. solve_decision. Defined.

Record Scores := { score_x : nat; score_o : nat; score_draws : nat }.

Record state := {
  board : Board;
  boardId : nat;
  xIsNext : bool;
  mode : Mode;
  scores : Scores;
  aiThinking : bool;
  (* the 450ms timeout of the computer's move and the [board] its closure
     holds, when one is pending *)
  aiTimer : option Board;
  (* the 150ms timeouts of the scoring effect, each with its [winner] *)
  scoreTimers : list verdict;
}.

(** [Boolean(winner)] *)
Definition decided (w : verdict) : bool :=
  match w with NoWinner => false | _ => true end.

Definition init0 : state :=
  {| board := initialBoard; boardId := 0; xIsNext := true; mode := pvc;
     scores := {| score_x := 0; score_o := 0; score_draws := 0 |};
     aiThinking := false; aiTimer := None; scoreTimers := [] |}.

(** *** Effects *)

(** "Handle endgame and scoring": [if (!winner) return; setTimeout(...)] *)
Definition scoreEffect (s : state) : state :=
  let w := winner (calculateWinner (board s)) in
  if decided w then
    {| board := board s; boardId := boardId s; xIsNext := xIsNext s;
       mode := mode s; scores := scores s; aiThinking := aiThinking s;
       aiTimer := aiTimer s; scoreTimers := scoreTimers s ++ [w] |}
  else s.

(** The cleanup of the computer's effect: [clearTimeout(timer)] *)
Definition aiCleanup (s : state) : state :=
  {| board := board s; boardId := boardId s; xIsNext := xIsNext s;
     mode := mode s; scores := scores s; aiThinking := aiThinking s;
     aiTimer := None; scoreTimers := scoreTimers s |}.

(** "AI Move if in pvc mode":
    [if (mode !== 'pvc' || winner || xIsNext) return;
     setAiThinking(true); const timer = setTimeout(...)] *)
Definition aiEffect (s : state) : state :=
  let w := winner (calculateWinner (board s)) in
  if bool_decide (mode s ≠ pvc) || decided w || xIsNext s then s
  else
    {| board := board s; boardId := boardId s; xIsNext := xIsNext s;
       mode := mode s; scores := scores s; aiThinking := true;
       aiTimer := Some (board s); scoreTimers := scoreTimers s |}.

(** What React runs after the render that follows a handler: an effect runs
    again when one of its dependencies changed, its cleanup first.  The
    scoring effect depends on [[board]], the computer's effect on
    [[board, mode, xIsNext]]. *)
Definition runEffects (old new : state) : state :=
  let s1 :=
    if bool_decide (boardId new ≠ boardId old) then scoreEffect new else new in
  if bool_decide (boardId new ≠ boardId old)
     || bool_decide (mode new ≠ mode old)
     || bool_decide (xIsNext new ≠ xIsNext old)
  then aiEffect (aiCleanup s1)
  else s1.

(** The state after the first render and its effects. *)
Definition init : state := aiEffect (scoreEffect init0).

(** *** Handlers *)

Definition handleSquareClick (i : nat) (s : state) : state :=
  let w := winner (calculateWinner (board s)) in
  if decided w || truthy (get (board s) i)
     || (bool_decide (mode s = pvc) && aiThinking s)
  then s
  else
    {| board := copy_set (board s) i (if xIsNext s then X else O);
       boardId := S (boardId s);
       xIsNext := negb (xIsNext s);
       mode := mode s; scores := scores s; aiThinking := aiThinking s;
       aiTimer := aiTimer s; scoreTimers := scoreTimers s |}.

Definition resetBoard (s : state) : state :=
  {| board := initialBoard; boardId := S (boardId s); xIsNext := true;
     mode := mode s; scores := scores s; aiThinking := false;
     aiTimer := aiTimer s; scoreTimers := scoreTimers s |}.

Definition newMatch (s : state) : state := resetBoard s.

Definition resetScores (s : state) : state :=
  resetBoard
    {| board := board s; boardId := boardId s; xIsNext := xIsNext s;
       mode := mode s;
       scores := {| score_x := 0; score_o := 0; score_draws := 0 |};
       aiThinking := aiThinking s; aiTimer := aiTimer s;
       scoreTimers := scoreTimers s |}.

(** [onChange={(m) => { setMode(m); newMatch(); }}] *)
Definition changeMode (m : Mode) (s : state) : state :=
  newMatch
    {| board := board s; boardId := boardId s; xIsNext := xIsNext s;
       mode := m; scores := scores s; aiThinking := aiThinking s;
       aiTimer := aiTimer s; scoreTimers := scoreTimers s |}.

(** The callback of the computer's timeout.  [computeAIMove] reads the
    [board] of the closure, [setBoard(prev => ...)] writes the current one. *)
Definition aiTimeout (r : rand) (s : state) : state :=
  match aiTimer s with
  | None => s
  | Some captured =>
      match computeAIMove captured O X r with
      | Some move =>
          {| board := copy_set (board s) move O; boardId := S (boardId s);
             xIsNext := true; mode := mode s; scores := scores s;
             aiThinking := false; aiTimer := None;
             scoreTimers := scoreTimers s |}
      | None =>
          {| board := board s; boardId := boardId s; xIsNext := xIsNext s;
             mode := mode s; scores := scores s; aiThinking := false;
             aiTimer := None; scoreTimers := scoreTimers s |}
      end
  end.

(** [setScores(prev => ...)] in the callback of a scoring timeout. *)
Definition addScore (w : verdict) (sc : Scores) : Scores :=
  match w with
  | Won X => {| score_x := score_x sc + 1; score_o := score_o sc;
                score_draws := score_draws sc |}
  | Won O => {| score_x := score_x sc; score_o := score_o sc + 1;
                score_draws := score_draws sc |}
  | _ => {| score_x := score_x sc; score_o := score_o sc;
            score_draws := score_draws sc + 1 |}
  end.

Definition scoreTimeout (s : state) : state :=
  match scoreTimers s with
  | [] => s
  | w :: rest =>
      {| board := board s; boardId := boardId s; xIsNext := xIsNext s;
         mode := mode s; scores := addScore w (scores s);
         aiThinking := aiThinking s; aiTimer := aiTimer s;
         scoreTimers := rest |}
  end.

(** *** The step relation *)

Inductive event :=
  | Click (i : nat)          (* a square is clicked *)
  | AiTimeout (r : rand)     (* the computer's timeout fires *)
  | ScoreTimeout             (* a scoring timeout fires *)
  | NewRound                 (* the "New Round" button *)
  | ResetScores              (* the "Reset Scores" button *)
  | SetMode (m : Mode).      (* a pill of the mode switch *)

Definition handle (e : event) (s : state) : state :=
  match e with
  | Click i => handleSquareClick i s
  | AiTimeout r => aiTimeout r s
  | ScoreTimeout => scoreTimeout s
  | NewRound => newMatch s
  | ResetScores => resetScores s
  | SetMode m => changeMode m s
  end.

Definition step (s : state) (e : event) : state := runEffects s (handle e s).

(** An event can happen when its source exists: [Board] renders one square
    per cell of the board, and a timeout fires only while it is pending. *)
Definition enabled (s : state) (e : event) : Prop :=
  match e with
  | Click i => i < length (board s)
  | AiTimeout _ => aiTimer s ≠ None
  | ScoreTimeout => scoreTimers s ≠ []
  | _ => True
  end.

Inductive reachable : state → Prop :=
  | reachable_init : reachable init
  | reachable_step s e : reachable s → enabled s e → reachable (step s e).

(** The events that start a new round. *)
Definition is_reset (e : event) : bool :=
  match e with NewRound | ResetScores | SetMode _ => true | _ => false end.

(** ** The vocabulary of the specification *)

(** The three indices of a line, as [calculateWinner] reports them. *)
Definition line_of (l : nat * nat * nat) : list nat :=
  let '(a, b, c) := l in [a; b; c].

(** All three cells of the line hold the mark [m]. *)
Definition holds (board : Board) (l : nat * nat * nat) (m : mark) : Prop :=
  ∀ i, i ∈ line_of l → board !! i = Some (Some m).

(** The line is complete: its cells hold the same non-empty mark. *)
Definition complete (board : Board) (l : nat * nat * nat) : Prop :=
  ∃ m, holds board l m.

Definition empty_at (board : Board) (i : nat) : Prop := board !! i = Some None.

(** Every cell is non-empty. *)
Definition full (board : Board) : Prop :=
  ∀ i c, board !! i = Some c → c ≠ None.

(** Cell [i] is empty and the outcome of the board with [m] placed there is
    a win for [m]. *)
Definition immediate_win (board : Board) (m : mark) (i : nat) : Prop :=
  empty_at board i ∧ winner (calculateWinner (copy_set board i m)) = Won m.

(** One empty cell of [b] is written to a mark, and nothing else changes. *)
Definition fills_one_empty (b b' : Board) : Prop :=
  ∃ i m, empty_at b i ∧ b' = copy_set b i m.

(** What holds of every reachable state: the board has nine cells, and the
    board that a pending timeout of the computer holds is the current one
    (the cleanup of the effect clears the timeout when the board changes). *)
Definition app_inv (s : state) : Prop :=
  length (board s) = 9 ∧
  ∀ captured, aiTimer s = Some captured → captured = board s.

(** ** The call of [calculateWinner] as a completion

    A call in JavaScript returns a value or throws.  The body of
    [calculateWinner] has no [throw] and tests no length, and what it does
    to its argument (index reads, [every]) does not throw on an array: the
    call returns. *)

Inductive completion (A : Type) := Returned (a : A) | Threw.
Arguments Returned {A} a.
Arguments Threw {A}.

Definition evaluate (board : Board) : completion result :=
  Returned (calculateWinner board).

(** ** Boards of the scenarios *)

(** [X,X,_, _,O,_, _,_,_] *)
Definition board_top_row_threat : Board :=
  [Some X; Some X; None; None; Some O; None; None; None; None].

(** [X,O,X, O,X,O, _,_,_] *)
Definition board_last_row_open : Board :=
  [Some X; Some O; Some X; Some O; Some X; Some O; None; None; None].

(** [X,O,X, X,O,O, O,X,X]: full, no line *)
Definition board_drawn : Board :=
  [Some X; Some O; Some X; Some X; Some O; Some O; Some O; Some X; Some X].

(** [X,X,X, O,O,O, _,_,_]: two complete rows *)
Definition board_two_rows : Board :=
  [Some X; Some X; Some X; Some O; Some O; Some O; None; None; None].

(** [O,O,_, X,X,_, _,_,_]: O can win at 2, X would win at 5 *)
Definition board_win_or_block : Board :=
  [Some O; Some O; None; Some X; Some X; None; None; None; None].

(** [_,_,_, _,X,_, _,_,_] *)
Definition board_center_taken : Board :=
  [None; None; None; None; Some X; None; None; None; None].

(** [X,O,X, _,X,_, O,X,O]: only the sides 3 and 5 are empty *)
Definition board_sides_left : Board :=
  [Some X; Some O; Some X; None; Some X; None; Some O; Some X; Some O].

(** [X,X,_, X,O,_, _,O,_]: X would win at 2 and at 6 *)
Definition board_fork : Board :=
  [Some X; Some X; None; Some X; Some O; None; None; Some O; None].

Definition half : rand := {| rnum := 1; rden := 2; rand_lt_1 := Nat.lt_1_2 |}.

(** ** Vocabulary of the further properties *)

(** The other mark. *)
Definition other (m : mark) : mark := match m with X => O | O => X end.

Definition swap_value (v : value) : value :=
  match v with str m => str (other m) | v => v end.

(** The board with the two marks exchanged. *)
Definition swap_marks (board : Board) : Board :=
  (λ c : cell, other <$> c) <$> board.

Definition swap_result (r : result) : result :=
  {| winner := match winner r with Won m => Won (other m) | w => w end;
     line := line r |}.

(** The number of cells that hold [m]. *)
Definition count_mark (m : mark) (board : Board) : nat :=
  length (filter (λ c, c = Some m) board).

(** All the complete lines of the board hold the same mark. *)
Definition one_winner (board : Board) : Prop :=
  ∀ l l' m m', l ∈ LINES → l' ∈ LINES →
               holds board l m → holds board l' m' → m = m'.

(** The test of the computer's effect passes: the negation of
    [mode !== 'pvc' || winner || xIsNext]. *)
Definition aiTurn (s : state) : bool :=
  bool_decide (mode s = pvc)
  && negb (decided (winner (calculateWinner (board s))))
  && negb (xIsNext s).

Definition score_total (sc : Scores) : nat :=
  score_x sc + score_o sc + score_draws sc.

(** ** What [App] passes to [Board], and [Board] to each [Square] *)

(** [disabled={Boolean(winner) || (mode === 'pvc' && !xIsNext) || aiThinking}] *)
Definition boardDisabled (s : state) : bool :=
  decided (winner (calculateWinner (board s)))
  || (bool_decide (mode s = pvc) && negb (xIsNext s))
  || aiThinking s.

(** [disabled={disabled || Boolean(value)}], for the square of cell [i] *)
Definition squareDisabled (s : state) (i : nat) : bool :=
  boardDisabled s || truthy (get (board s) i).

(** [highlight={winningLine.includes(i)}] *)
Definition squareHighlight (s : state) (i : nat) : bool :=
  bool_decide (i ∈ line (calculateWinner (board s))).

(** What holds of every reachable state, besides [app_inv]. *)
Definition game_inv (s : state) : Prop :=
  (aiThinking s = true ↔ is_Some (aiTimer s)) ∧
  (is_Some (aiTimer s) ↔ aiTurn s = true) ∧
  count_mark X (board s)
  = count_mark O (board s) + (if xIsNext s then 0 else 1) ∧
  one_winner (board s).

(** [X,O,X, X,O,O, O,X,X, _]: ten cells, the first nine full *)
Definition board_ten_cells : Board := board_drawn ++ [None].

(** A round of two players, one click before X completes the top row, and
    after it. *)
Definition round_before_win : state :=
  foldl step init [SetMode pvp; Click 0; Click 3; Click 1; Click 4].

Definition round_won : state := step round_before_win (Click 2).

(** A round against the computer in which O, to move, can win at 6. *)
Definition round_computer_can_win : state :=
  foldl step init
    [Click 0; AiTimeout half; Click 1; AiTimeout half; Click 3].

Definition noScores : Scores :=
  {| score_x := 0; score_o := 0; score_draws := 0 |}.

Definition zero_draw : rand :=
  {| rnum := 0; rden := 1; rand_lt_1 := Nat.lt_0_1 |}.

(** * Properties *)

(** Case analysis on [H : x ∈ [a; b; ...]]: one goal per element. *)
Ltac elem_cases H :=
  repeat (apply elem_of_cons in H as [?|H]; [simplify_eq|]);
  try (by apply not_elem_of_nil in H).

(** ** Reading a board *)

Lemma get_str (board : Board) i m :
  get board i = str m ↔ board !! i = Some (Some m).
Proof.
  unfold get. destruct (board !! i) as [[m'|]|]; simpl; split; intros H;
    by simplify_eq.
Qed.

Lemma get_null (board : Board) i :
  get board i = null ↔ board !! i = Some None.
Proof.
  unfold get. destruct (board !! i) as [[m'|]|]; simpl; split; intros H;
    by simplify_eq.
Qed.

Lemma truthy_get (board : Board) i :
  truthy (get board i) = true ↔ ∃ m, board !! i = Some (Some m).
Proof.
  unfold get. destruct (board !! i) as [[m'|]|]; simpl; split;
    try (intros [? ?]); try intros ?; simplify_eq; eauto.
Qed.

Lemma copy_set_length (board : Board) i m :
  length (copy_set board i m) = length board.
Proof. apply length_insert. Qed.

(** ** availableMoves: the indices of the empty cells, in ascending order *)

Lemma availableMoves_shift (board : Board) :
  omap id (imap ((λ i (v : cell), if truthy (of_cell v) then None else Some i) ∘ S) board)
  = S <$> availableMoves board.
Proof.
  unfold availableMoves.
  induction board as [|c board IH] using rev_ind; [done|].
  rewrite !imap_app, !omap_app, fmap_app, IH. simpl.
  by destruct (truthy (of_cell c)).
Qed.

Lemma availableMoves_cons c (board : Board) :
  availableMoves (c :: board) =
  (if truthy (of_cell c) then [] else [0]) ++ (S <$> availableMoves board).
Proof.
  rewrite <- availableMoves_shift. unfold availableMoves.
  rewrite imap_cons. by destruct (truthy (of_cell c)).
Qed.

Lemma find_fmap_S (test : nat → bool) (l : list nat) :
  find test (S <$> l) = S <$> find (test ∘ S) l.
Proof.
  induction l as [|x l IH]; [done|].
  simpl. destruct (test (S x)); [done|]. apply IH.
Qed.

(** The loop [for (const move of moves) if (test(move)) return move] stops
    at the lowest empty cell that passes the test. *)
Lemma find_availableMoves_Some (test : nat → bool) (board : Board) i :
  find test (availableMoves board) = Some i ↔
  board !! i = Some None ∧ test i = true ∧
  ∀ j, j < i → board !! j = Some None → test j = false.
Proof.
  revert test i. induction board as [|c board IH]; intros test i.
  { split; [done|]. by intros [? _]. }
  rewrite availableMoves_cons.
  assert (find test (S <$> availableMoves board) = Some i ↔
          ∃ i', i = S i' ∧ board !! i' = Some None ∧ test (S i') = true ∧
                ∀ j, j < i' → board !! j = Some None → test (S j) = false)
    as Htail.
  { rewrite find_fmap_S. split.
    - destruct (find (test ∘ S) (availableMoves board)) as [i'|] eqn:E;
        [|done].
      intros [= <-]. exists i'. split; [done|]. by apply IH in E.
    - intros (i' & -> & H). apply (IH (test ∘ S)) in H. by rewrite H. }
  destruct c as [m|]; simpl.
  - rewrite Htail. split.
    + intros (i' & -> & He & Ht & Hmin). repeat split; [done..|].
      intros [|j] Hj; [done|]. simpl. apply Hmin. lia.
    + destruct i as [|i']; [by intros [? _]|].
      intros (He & Ht & Hmin). exists i'. repeat split; [done..|].
      intros j Hj. apply (Hmin (S j)). lia.
  - destruct (test 0) eqn:E0.
    + split.
      * intros [= <-]. repeat split; [done|]. intros j Hj. lia.
      * intros (He & Ht & Hmin). destruct i as [|i']; [done|].
        rewrite (Hmin 0) in E0; [done|lia|done].
    + rewrite Htail. split.
      * intros (i' & -> & He & Ht & Hmin). repeat split; [done..|].
        intros [|j] Hj; [done|]. simpl. apply Hmin. lia.
      * destruct i as [|i']; [intros (_ & Ht & _); congruence|].
        intros (He & Ht & Hmin). exists i'. repeat split; [done..|].
        intros j Hj. apply (Hmin (S j)). lia.
Qed.

Lemma elem_of_availableMoves (board : Board) i :
  i ∈ availableMoves board ↔ board !! i = Some None.
Proof.
  unfold availableMoves. rewrite list_elem_of_omap. split.
  - intros (o & Ho & Hid). unfold id in Hid. subst o.
    apply elem_of_lookup_imap in Ho as (k & c & Hk & Hc).
    destruct c as [m|]; simpl in Hk; by simplify_eq.
  - intros Hi. exists (Some i). split; [|done].
    apply elem_of_lookup_imap. exists i, None. done.
Qed.

Lemma find_availableMoves_None (test : nat → bool) (board : Board) :
  find test (availableMoves board) = None ↔
  ∀ j, board !! j = Some None → test j = false.
Proof.
  split.
  - intros Hnone j Hj. apply (find_none _ _ Hnone).
    by apply list_elem_of_In, elem_of_availableMoves.
  - intros Hall. destruct (find test (availableMoves board)) as [i|] eqn:E;
      [|done].
    apply find_availableMoves_Some in E as (He & Ht & _).
    rewrite (Hall i He) in Ht. done.
Qed.

(** Every candidate move is an index of the array. *)
Lemma availableMoves_lt (board : Board) i :
  i ∈ availableMoves board → i < length board.
Proof. rewrite elem_of_availableMoves. apply lookup_lt_Some. Qed.

Lemma availableMoves_nil (board : Board) :
  availableMoves board = [] ↔ ∀ i, board !! i ≠ Some None.
Proof.
  split.
  - intros E i Hi. apply elem_of_availableMoves in Hi. rewrite E in Hi.
    by apply not_elem_of_nil in Hi.
  - intros Hall. destruct (availableMoves board) as [|i l] eqn:E; [done|].
    destruct (Hall i). apply elem_of_availableMoves. rewrite E. left.
Qed.

Lemma head_availableMoves (board : Board) i :
  head (availableMoves board) = Some i → board !! i = Some None.
Proof.
  intros H. apply elem_of_availableMoves.
  destruct (availableMoves board); simplify_eq/=. left.
Qed.

(** ** calculateWinner *)

Lemma forallb_truthy_full (board : Board) :
  forallb (λ c, truthy (of_cell c)) board = true ↔ full board.
Proof.
  unfold full. induction board as [|c board IH]; simpl.
  { split; [|done]. intros _ i c Hc. done. }
  rewrite andb_true_iff, IH. split.
  - intros [Hc Hall] [|i] c'; simpl.
    + intros [= <-]. by destruct c.
    + apply Hall.
  - intros Hall. split.
    + specialize (Hall 0 c eq_refl). by destruct c.
    + intros i c'. apply (Hall (S i)).
Qed.

Section line_scan.
  Context (board : Board).

Lemma holds_triple a b c m :
  holds board (a, b, c) m ↔
  board !! a = Some (Some m) ∧ board !! b = Some (Some m) ∧
  board !! c = Some (Some m).
Proof.
  unfold holds. simpl. split.
  - intros H. repeat split; apply H; repeat constructor.
  - intros (Ha & Hb & Hc) i Hi. elem_cases Hi; done.
Qed.

Lemma line_check_Some l r :
  line_check board l = Some r ↔
  ∃ m, holds board l m ∧ r = {| winner := Won m; line := line_of l |}.
Proof.
  destruct l as [[a b] c]. unfold line_check. simpl. split.
  - destruct (get board a) as [| |m] eqn:Ea; [done..|].
    destruct (bool_decide (str m = get board b)) eqn:Eb; [|done].
    destruct (bool_decide (get board b = get board c)) eqn:Ec; [|done].
    apply bool_decide_eq_true in Eb, Ec. rewrite <- Eb in Ec.
    intros [= <-]. exists m. split; [|done].
    apply holds_triple. by rewrite <- !get_str.
  - intros (m & (Ha & Hb & Hc)%holds_triple & ->).
    apply get_str in Ha, Hb, Hc. rewrite Ha, Hb, Hc.
    by rewrite !bool_decide_eq_true_2.
Qed.

Lemma line_check_None l :
  line_check board l = None ↔ ¬ complete board l.
Proof.
  split.
  - intros E (m & Hm).
    assert (line_check board l = Some {| winner := Won m; line := line_of l |})
      as E' by (apply line_check_Some; eauto).
    congruence.
  - intros Hn. destruct (line_check board l) as [r|] eqn:E; [|done].
    apply line_check_Some in E as (m & Hm & _). destruct Hn. by exists m.
Qed.

Lemma for_lines_Some lines r :
  for_lines lines board = Some r ↔
  ∃ k l m, lines !! k = Some l ∧ holds board l m ∧
           (∀ j l', j < k → lines !! j = Some l' → ¬ complete board l') ∧
           r = {| winner := Won m; line := line_of l |}.
Proof.
  induction lines as [|l0 lines IH]; simpl.
  { split; [done|]. by intros (k & l & m & ? & _). }
  destruct (line_check board l0) as [r0|] eqn:E0.
  - apply line_check_Some in E0 as (m0 & Hm0 & ->). split.
    + intros [= <-]. exists 0, l0, m0. repeat split; [done..|]. intros; lia.
    + intros (k & l & m & Hk & Hm & Hmin & ->).
      destruct k as [|k].
      * simpl in Hk. injection Hk as <-.
        assert (m = m0) as ->; [|done].
        destruct l0 as [[a b] c].
        apply holds_triple in Hm as [Ha _], Hm0 as [Ha0 _]. congruence.
      * destruct (Hmin 0 l0); [lia|done|]. by exists m0.
  - apply line_check_None in E0. rewrite IH. split.
    + intros (k & l & m & Hk & Hm & Hmin & ->).
      exists (S k), l, m. repeat split; [done..|].
      intros [|j] l' Hj Hl'; simpl in Hl'; [by injection Hl' as <-|].
      apply (Hmin j); [lia|done].
    + intros (k & l & m & Hk & Hm & Hmin & ->).
      destruct k as [|k].
      * simpl in Hk. injection Hk as <-. destruct E0. by exists m.
      * exists k, l, m. repeat split; [done..|].
        intros j l' Hj Hl'. apply (Hmin (S j)); [lia|done].
Qed.

Lemma for_lines_None lines :
  for_lines lines board = None ↔ ∀ l, l ∈ lines → ¬ complete board l.
Proof.
  induction lines as [|l0 lines IH]; simpl.
  { split; [|done]. intros _ l Hl. by apply not_elem_of_nil in Hl. }
  destruct (line_check board l0) as [r0|] eqn:E0.
  - split; [done|]. intros Hall.
    apply line_check_Some in E0 as (m0 & Hm0 & _).
    destruct (Hall l0); [left|by exists m0].
  - apply line_check_None in E0. rewrite IH. split.
    + intros Hall l [->|Hl]%elem_of_cons; auto.
    + intros Hall l Hl. apply Hall. by right.
Qed.

(** The three cases of [calculateWinner], on an array of any length. *)
Lemma calculateWinner_cases :
  (∀ k l m,
     LINES !! k = Some l → holds board l m →
     (∀ j l', j < k → LINES !! j = Some l' → ¬ complete board l') →
     calculateWinner board = {| winner := Won m; line := line_of l |}) ∧
  ((∀ l, l ∈ LINES → ¬ complete board l) → full board →
     calculateWinner board = {| winner := Draw; line := [] |}) ∧
  ((∀ l, l ∈ LINES → ¬ complete board l) → ¬ full board →
     calculateWinner board = {| winner := NoWinner; line := [] |}).
Proof.
  unfold calculateWinner. repeat split.
  - intros k l m Hk Hm Hmin.
    assert (for_lines LINES board
            = Some {| winner := Won m; line := line_of l |}) as ->; [|done].
    apply for_lines_Some. by exists k, l, m.
  - intros Hno Hfull. apply for_lines_None in Hno as ->.
    apply forallb_truthy_full in Hfull as ->. done.
  - intros Hno Hfull. apply for_lines_None in Hno as ->.
    destruct (forallb _ board) eqn:E; [|done].
    by apply forallb_truthy_full in E.
Qed.

End line_scan.

(** ** The random index *)

Lemma floor_random_lt r n : 0 < n → floor_random r n < n.
Proof.
  intros Hn. unfold floor_random. pose proof (rand_lt_1 r) as Hr.
  apply Nat.Div0.div_lt_upper_bound. nia.
Qed.

Lemma pick_elem_of (l : list nat) r :
  l ≠ [] → ∃ i, l !! floor_random r (length l) = Some i ∧ i ∈ l.
Proof.
  intros Hl.
  assert (floor_random r (length l) < length l) as Hlt.
  { apply floor_random_lt. destruct l; [done|simpl; lia]. }
  apply lookup_lt_is_Some_2 in Hlt as [i Hi].
  exists i. split; [done|]. by eapply list_elem_of_lookup_2.
Qed.

(** ** computeAIMove, rule by rule *)

Section advisor.
  Context (board : Board) (ai human : mark) (r : rand).

Lemma wins_with_true m i :
  wins_with board m i = true ↔
  winner (calculateWinner (copy_set board i m)) = Won m.
Proof. unfold wins_with. apply bool_decide_eq_true. Qed.

Lemma immediate_win_iff m i :
  immediate_win board m i ↔
  board !! i = Some None ∧ wins_with board m i = true.
Proof. unfold immediate_win, empty_at. by rewrite wins_with_true. Qed.

Lemma find_win_Some m i :
  find (wins_with board m) (availableMoves board) = Some i ↔
  immediate_win board m i ∧ ∀ j, j < i → ¬ immediate_win board m j.
Proof.
  rewrite find_availableMoves_Some, immediate_win_iff. split.
  - intros (He & Hw & Hmin). repeat split; [done..|].
    intros j Hj [Hej Hwj]%immediate_win_iff.
    rewrite (Hmin j Hj Hej) in Hwj. done.
  - intros ([He Hw] & Hmin). repeat split; [done..|].
    intros j Hj Hej. destruct (wins_with board m j) eqn:E; [|done].
    destruct (Hmin j Hj). by apply immediate_win_iff.
Qed.

Lemma find_win_None m :
  find (wins_with board m) (availableMoves board) = None ↔
  ∀ i, ¬ immediate_win board m i.
Proof.
  rewrite find_availableMoves_None. split.
  - intros Hall i [He Hw]%immediate_win_iff. rewrite (Hall i He) in Hw. done.
  - intros Hall j Hej. destruct (wins_with board m j) eqn:E; [|done].
    destruct (Hall j). by apply immediate_win_iff.
Qed.

(** Rule 1. *)
Lemma computeAIMove_win i :
  find (wins_with board ai) (availableMoves board) = Some i →
  computeAIMove board ai human r = Some i.
Proof. intros H. unfold computeAIMove. by rewrite H. Qed.

(** Rule 2. *)
Lemma computeAIMove_block i :
  find (wins_with board ai) (availableMoves board) = None →
  find (wins_with board human) (availableMoves board) = Some i →
  computeAIMove board ai human r = Some i.
Proof. intros H1 H2. unfold computeAIMove. by rewrite H1, H2. Qed.

(** Rule 3. *)
Lemma computeAIMove_center :
  find (wins_with board ai) (availableMoves board) = None →
  find (wins_with board human) (availableMoves board) = None →
  board !! 4 = Some None →
  computeAIMove board ai human r = Some 4.
Proof.
  intros H1 H2 H4%get_null. unfold computeAIMove.
  by rewrite H1, H2, H4.
Qed.

(** Rules 4 to 6, when the first three do not apply. *)
Lemma computeAIMove_rest :
  find (wins_with board ai) (availableMoves board) = None →
  find (wins_with board human) (availableMoves board) = None →
  board !! 4 ≠ Some None →
  computeAIMove board ai human r =
  let corners := filter (λ i, get board i = null) [0; 2; 6; 8] in
  let sides := filter (λ i, get board i = null) [1; 3; 5; 7] in
  match corners, sides with
  | _ :: _, _ => corners !! floor_random r (length corners)
  | [], _ :: _ => sides !! floor_random r (length sides)
  | [], [] => head (availableMoves board)
  end.
Proof.
  intros H1 H2 H4. unfold computeAIMove. rewrite H1, H2.
  rewrite bool_decide_eq_false_2 by (by rewrite get_null).
  cbv zeta.
  destruct (filter _ [0; 2; 6; 8]) as [|c cs]; simpl length.
  - rewrite (bool_decide_eq_false_2 (0 ≠ 0)) by (intros H; by apply H).
    destruct (filter _ [1; 3; 5; 7]) as [|d ds]; simpl length.
    + by rewrite (bool_decide_eq_false_2 (0 ≠ 0)) by (intros H; by apply H).
    + by rewrite bool_decide_eq_true_2.
  - by rewrite bool_decide_eq_true_2.
Qed.

Lemma elem_of_candidates (idxs : list nat) i :
  i ∈ filter (λ i, get board i = null) idxs ↔ i ∈ idxs ∧ empty_at board i.
Proof. rewrite list_elem_of_filter, get_null. unfold empty_at. tauto. Qed.

Lemma candidates_nil (idxs : list nat) :
  filter (λ i, get board i = null) idxs = [] ↔
  ∀ i, i ∈ idxs → ¬ empty_at board i.
Proof.
  split.
  - intros E i Hi He.
    assert (i ∈ filter (λ i, get board i = null) idxs) as Hin
      by (by apply elem_of_candidates).
    rewrite E in Hin. by apply not_elem_of_nil in Hin.
  - intros Hall. destruct (filter _ idxs) as [|i l] eqn:E; [done|].
    assert (i ∈ filter (λ i, get board i = null) idxs) as Hin
      by (rewrite E; left).
    apply elem_of_candidates in Hin as [Hi He]. by destruct (Hall i).
Qed.

(** Whatever rule answers, the answer is an empty cell. *)
Lemma computeAIMove_empty i :
  computeAIMove board ai human r = Some i → empty_at board i.
Proof.
  destruct (find (wins_with board ai) (availableMoves board)) as [w|] eqn:E1.
  { rewrite (computeAIMove_win _ E1). intros [= <-].
    by apply find_availableMoves_Some in E1 as [? _]. }
  destruct (find (wins_with board human) (availableMoves board)) as [w|] eqn:E2.
  { rewrite (computeAIMove_block _ E1 E2). intros [= <-].
    by apply find_availableMoves_Some in E2 as [? _]. }
  destruct (decide (board !! 4 = Some None)) as [E4|E4].
  { rewrite (computeAIMove_center E1 E2 E4). by intros [= <-]. }
  rewrite (computeAIMove_rest E1 E2 E4). cbv zeta.
  destruct (filter _ [0; 2; 6; 8]) as [|c cs] eqn:Ec.
  - destruct (filter _ [1; 3; 5; 7]) as [|d ds] eqn:Ed.
    + apply head_availableMoves.
    + intros Hi%list_elem_of_lookup_2. rewrite <- Ed in Hi.
      by apply elem_of_candidates in Hi as [_ ?].
  - intros Hi%list_elem_of_lookup_2. rewrite <- Ec in Hi.
    by apply elem_of_candidates in Hi as [_ ?].
Qed.

(** [null] is answered only on a board without an empty cell. *)
Lemma computeAIMove_None :
  computeAIMove board ai human r = None ↔ ∀ i, ¬ empty_at board i.
Proof.
  split.
  - destruct (find (wins_with board ai) (availableMoves board)) as [w|] eqn:E1.
    { by rewrite (computeAIMove_win _ E1). }
    destruct (find (wins_with board human) (availableMoves board))
      as [w|] eqn:E2.
    { by rewrite (computeAIMove_block _ E1 E2). }
    destruct (decide (board !! 4 = Some None)) as [E4|E4].
    { by rewrite (computeAIMove_center E1 E2 E4). }
    rewrite (computeAIMove_rest E1 E2 E4). cbv zeta.
    destruct (filter _ [0; 2; 6; 8]) as [|c cs] eqn:Ec.
    + destruct (filter _ [1; 3; 5; 7]) as [|d ds] eqn:Ed.
      * intros Hh. apply availableMoves_nil.
        by destruct (availableMoves board).
      * intros Hn. destruct (pick_elem_of (d :: ds) r) as (i & Hi & _);
          [done|congruence].
    + intros Hn. destruct (pick_elem_of (c :: cs) r) as (i & Hi & _);
        [done|congruence].
  - intros Hall.
    destruct (computeAIMove board ai human r) as [i|] eqn:E; [|done].
    apply computeAIMove_empty in E. by destruct (Hall i).
Qed.

End advisor.

(** ** The board evaluator *)

(** C1.  On a board of nine cells, [calculateWinner] reports the first line
    of [LINES] (rows, then columns, then diagonals) whose three cells hold
    the same mark, with that mark; when no line is complete it reports a
    draw if every cell is non-empty, and no winner otherwise.  A line is
    first when no line before it in [LINES] is complete, so of several
    complete lines the earliest is the one reported. *)
Theorem calculateWinner_first_line (board : Board) :
  length board = 9 →
  (∀ k l m,
     LINES !! k = Some l → holds board l m →
     (∀ j l', j < k → LINES !! j = Some l' → ¬ complete board l') →
     calculateWinner board = {| winner := Won m; line := line_of l |}) ∧
  ((∀ l, l ∈ LINES → ¬ complete board l) → full board →
     calculateWinner board = {| winner := Draw; line := [] |}) ∧
  ((∀ l, l ∈ LINES → ¬ complete board l) → ¬ full board →
     calculateWinner board = {| winner := NoWinner; line := [] |}).
Proof. intros _. apply calculateWinner_cases. Qed.

Lemma calculateWinner_first_line_witness :
  length board_two_rows = 9 ∧
  calculateWinner board_two_rows = {| winner := Won X; line := [0; 1; 2] |}.
Proof.
  split; [reflexivity|].
  apply (proj1 (calculateWinner_first_line board_two_rows eq_refl)
           0 (0, 1, 2) X).
  - reflexivity.
  - apply holds_triple. repeat split; reflexivity.
  - intros j l' Hj. lia.
Defined.

(** ** The move advisor *)

(** C2.  When some empty cell gives the advisor an immediate win,
    [computeAIMove] answers the lowest such cell, whatever the opponent could
    do: the test for a win runs before the test for a block. *)
Theorem computeAIMove_win_priority (board : Board) ai human r :
  ai ≠ human →
  (∃ i, immediate_win board ai i) →
  ∃ i, computeAIMove board ai human r = Some i ∧
       immediate_win board ai i ∧
       ∀ j, j < i → ¬ immediate_win board ai j.
Proof.
  intros _ [i0 Hi0].
  destruct (find (wins_with board ai) (availableMoves board)) as [i|] eqn:E.
  - exists i. split; [by apply computeAIMove_win|]. by apply find_win_Some.
  - destruct (proj1 (find_win_None board ai) E i0 Hi0).
Qed.

Lemma computeAIMove_win_priority_witness :
  immediate_win board_win_or_block X 5 ∧
  ∃ i, computeAIMove board_win_or_block O X half = Some i ∧
       immediate_win board_win_or_block O i ∧
       ∀ j, j < i → ¬ immediate_win board_win_or_block O j.
Proof.
  split; [by split|].
  apply (computeAIMove_win_priority board_win_or_block O X half).
  - discriminate.
  - exists 2. by split.
Defined.

(** C3.  When no empty cell gives the advisor an immediate win and some
    empty cell would give the opponent one, [computeAIMove] answers the
    lowest cell on which the opponent would win.  The advisor's mark there
    prevents that win: the cell is no longer empty, and no line through
    it can be held by the opponent while the mark stays. *)
Theorem computeAIMove_blocks (board : Board) ai human r :
  ai ≠ human →
  (∀ i, ¬ immediate_win board ai i) →
  (∃ i, immediate_win board human i) →
  ∃ i, computeAIMove board ai human r = Some i ∧
       immediate_win board human i ∧
       (∀ j, j < i → ¬ immediate_win board human j) ∧
       copy_set board i ai !! i = Some (Some ai) ∧
       ¬ immediate_win (copy_set board i ai) human i ∧
       (∀ (later : Board) l,
          later !! i = Some (Some ai) → l ∈ LINES → i ∈ line_of l →
          ¬ holds later l human).
Proof.
  intros Hne Hnowin [i0 Hi0]. apply find_win_None in Hnowin.
  destruct (find (wins_with board human) (availableMoves board))
    as [i|] eqn:E.
  - exists i. split; [by apply computeAIMove_block|].
    apply find_win_Some in E as [Hw Hmin].
    assert (copy_set board i ai !! i = Some (Some ai)) as Hset.
    { apply list_lookup_insert_eq. destruct Hw as [He _].
      by apply lookup_lt_Some in He. }
    repeat split; [apply Hw..|done|done| |].
    + intros [He _]. unfold empty_at in He. congruence.
    + intros later l Hl _ Hin Hh. specialize (Hh i Hin). congruence.
  - destruct (proj1 (find_win_None board human) E i0 Hi0).
Qed.

Lemma computeAIMove_blocks_witness :
  ∃ i, computeAIMove board_top_row_threat O X half = Some i ∧
       immediate_win board_top_row_threat X i ∧
       (∀ j, j < i → ¬ immediate_win board_top_row_threat X j) ∧
       copy_set board_top_row_threat i O !! i = Some (Some O) ∧
       ¬ immediate_win (copy_set board_top_row_threat i O) X i ∧
       (∀ (later : Board) l,
          later !! i = Some (Some O) → l ∈ LINES → i ∈ line_of l →
          ¬ holds later l X).
Proof.
  apply (computeAIMove_blocks board_top_row_threat O X half).
  - discriminate.
  - by apply find_win_None.
  - exists 2. by split.
Defined.

(** The block is of one cell.  When the opponent has two winning cells, the
    answer takes the lower one and the other is still a win for the
    opponent: the advisor does not look further than one move. *)
Lemma computeAIMove_fork r :
  immediate_win board_fork X 2 ∧ immediate_win board_fork X 6 ∧
  computeAIMove board_fork O X r = Some 2 ∧
  immediate_win (copy_set board_fork 2 O) X 6.
Proof.
  split; [by split|]. split; [by split|].
  split; [by apply computeAIMove_block|by split].
Qed.

(** C4.  On a board of nine cells, [computeAIMove] answers the index of an
    empty cell of the board whenever there is one, and answers [null]
    exactly when there is none. *)
Theorem computeAIMove_total (board : Board) ai human r :
  length board = 9 →
  ((∃ i, empty_at board i) →
   ∃ i, computeAIMove board ai human r = Some i ∧ empty_at board i) ∧
  (computeAIMove board ai human r = None ↔ ¬ ∃ i, empty_at board i).
Proof.
  intros _. split.
  - intros [i0 Hi0].
    destruct (computeAIMove board ai human r) as [i|] eqn:E.
    + exists i. split; [done|]. by apply computeAIMove_empty in E.
    + destruct (proj1 (computeAIMove_None board ai human r) E i0 Hi0).
  - rewrite computeAIMove_None. split.
    + intros Hall [i Hi]. by destruct (Hall i).
    + intros Hno i Hi. destruct Hno. by exists i.
Qed.

Lemma computeAIMove_total_witness :
  (∃ i, computeAIMove board_center_taken O X half = Some i ∧
        empty_at board_center_taken i) ∧
  computeAIMove board_drawn O X half = None.
Proof.
  split.
  - apply (computeAIMove_total board_center_taken O X half eq_refl).
    by exists 0.
  - apply (computeAIMove_total board_drawn O X half eq_refl).
    intros [i Hi]. unfold empty_at in Hi.
    do 9 (destruct i as [|i]; [discriminate Hi|]). discriminate Hi.
Defined.

(** C5.  When neither mark has an immediate win and cell 4 is empty,
    [computeAIMove] answers 4; so it does on the empty board with the
    advisor playing O against X. *)
Theorem computeAIMove_takes_center r :
  (∀ (board : Board) ai human,
     (∀ i, ¬ immediate_win board ai i) →
     (∀ i, ¬ immediate_win board human i) →
     empty_at board 4 →
     computeAIMove board ai human r = Some 4) ∧
  computeAIMove initialBoard O X r = Some 4.
Proof.
  assert (∀ (board : Board) ai human,
     (∀ i, ¬ immediate_win board ai i) →
     (∀ i, ¬ immediate_win board human i) →
     empty_at board 4 →
     computeAIMove board ai human r = Some 4) as Hrule.
  { intros board ai human H1%find_win_None H2%find_win_None H4.
    by apply computeAIMove_center. }
  split; [done|].
  apply Hrule; [by apply find_win_None..|done].
Qed.

Lemma computeAIMove_takes_center_witness :
  computeAIMove [Some X; None; None; None; None; None; None; None; None]
    O X half = Some 4.
Proof.
  apply (proj1 (computeAIMove_takes_center half)).
  - by apply find_win_None.
  - by apply find_win_None.
  - reflexivity.
Defined.

(** C6.  When neither mark has an immediate win and the center is not
    empty: if a corner (0, 2, 6, 8) is empty the answer is an empty corner;
    if no corner is empty and a side (1, 3, 5, 7) is, the answer is an empty
    side; and a side is answered only when no corner is empty.  The random
    draw chooses within the candidates, whatever its value. *)
Theorem computeAIMove_corner_before_side (board : Board) ai human r :
  (∀ i, ¬ immediate_win board ai i) →
  (∀ i, ¬ immediate_win board human i) →
  ¬ empty_at board 4 →
  ((∃ c, c ∈ [0; 2; 6; 8] ∧ empty_at board c) →
   ∃ i, computeAIMove board ai human r = Some i ∧
        i ∈ [0; 2; 6; 8] ∧ empty_at board i) ∧
  ((∀ c, c ∈ [0; 2; 6; 8] → ¬ empty_at board c) →
   (∃ d, d ∈ [1; 3; 5; 7] ∧ empty_at board d) →
   ∃ i, computeAIMove board ai human r = Some i ∧
        i ∈ [1; 3; 5; 7] ∧ empty_at board i) ∧
  (∀ i, computeAIMove board ai human r = Some i → i ∈ [1; 3; 5; 7] →
        ∀ c, c ∈ [0; 2; 6; 8] → ¬ empty_at board c).
Proof.
  intros H1%find_win_None H2%find_win_None H4. unfold empty_at in H4.
  pose proof (computeAIMove_rest board ai human r H1 H2 H4) as Hrest.
  cbv zeta in Hrest.
  assert ((∃ c, c ∈ [0; 2; 6; 8] ∧ empty_at board c) →
          ∃ i, computeAIMove board ai human r = Some i ∧
               i ∈ [0; 2; 6; 8] ∧ empty_at board i) as Hcorner.
  { intros (c & Hc & Hec).
    assert (c ∈ filter (λ i, get board i = null) [0; 2; 6; 8]) as Hin
      by (by apply elem_of_candidates).
    destruct (filter _ [0; 2; 6; 8]) as [|c0 cs] eqn:Ec;
      [by apply not_elem_of_nil in Hin|].
    destruct (pick_elem_of (c0 :: cs) r) as (i & Hi & Hin'); [done|].
    exists i. split; [congruence|].
    rewrite <- Ec in Hin'. by apply elem_of_candidates in Hin'. }
  repeat split.
  - done.
  - intros Hnoc (d & Hd & Hed). apply candidates_nil in Hnoc.
    rewrite Hnoc in Hrest.
    assert (d ∈ filter (λ i, get board i = null) [1; 3; 5; 7]) as Hin
      by (by apply elem_of_candidates).
    destruct (filter _ [1; 3; 5; 7]) as [|d0 ds] eqn:Ed;
      [by apply not_elem_of_nil in Hin|].
    destruct (pick_elem_of (d0 :: ds) r) as (i & Hi & Hin'); [done|].
    exists i. split; [congruence|].
    rewrite <- Ed in Hin'. by apply elem_of_candidates in Hin'.
  - intros i Hi Hside c Hc Hec.
    destruct Hcorner as (i' & Hi' & Hcor & _); [by exists c|].
    assert (i' = i) as -> by congruence.
    clear -Hside Hcor. elem_cases Hcor; elem_cases Hside.
Qed.

Lemma computeAIMove_corner_before_side_witness :
  (∃ i, computeAIMove board_center_taken O X half = Some i ∧
        i ∈ [0; 2; 6; 8] ∧ empty_at board_center_taken i) ∧
  (∃ i, computeAIMove board_sides_left O X half = Some i ∧
        i ∈ [1; 3; 5; 7] ∧ empty_at board_sides_left i).
Proof.
  split.
  - apply (computeAIMove_corner_before_side board_center_taken O X half).
    + by apply find_win_None.
    + by apply find_win_None.
    + discriminate.
    + exists 0. split; [left|reflexivity].
  - apply (computeAIMove_corner_before_side board_sides_left O X half).
    + by apply find_win_None.
    + by apply find_win_None.
    + discriminate.
    + intros c Hc He. unfold empty_at in He. elem_cases Hc; discriminate He.
    + exists 3. split; [right; left|reflexivity].
Defined.

(** X21.  Every empty corner is the answer for some value of the random
    draw: the choice is over the whole set of candidates. *)
Lemma computeAIMove_any_corner (board : Board) ai human c :
  (∀ i, ¬ immediate_win board ai i) →
  (∀ i, ¬ immediate_win board human i) →
  ¬ empty_at board 4 →
  c ∈ [0; 2; 6; 8] → empty_at board c →
  ∃ r, computeAIMove board ai human r = Some c.
Proof.
  intros H1%find_win_None H2%find_win_None H4 Hc Hec.
  assert (c ∈ filter (λ i, get board i = null) [0; 2; 6; 8]) as Hin
    by (by apply elem_of_candidates).
  apply list_elem_of_lookup_1 in Hin as [k Hk].
  pose proof (lookup_lt_Some _ _ _ Hk) as Hlt.
  exists {| rnum := k; rden := _; rand_lt_1 := Hlt |}.
  rewrite (computeAIMove_rest board ai human _ H1 H2 H4). cbv zeta.
  destruct (filter _ [0; 2; 6; 8]) as [|c0 cs] eqn:Ec; [done|].
  unfold floor_random. cbn [rnum rden].
  rewrite Nat.div_mul; [done|]. simpl; lia.
Qed.

(** ** Malformed boards *)

(** C7, as the claim states it, fails: the call with the empty array, which
    has not nine cells, does not throw; it returns, and what it returns is
    a draw. *)
Lemma evaluate_does_not_reject :
  length ([] : Board) ≠ 9 ∧
  evaluate [] = Returned {| winner := Draw; line := [] |} ∧
  evaluate [] ≠ Threw.
Proof. repeat split; discriminate. Qed.

Lemma evaluate_never_throws (board : Board) : evaluate board ≠ Threw.
Proof. discriminate. Qed.

(** C7, amended.  [calculateWinner] checks no shape: on an array of any other
    length than nine the call returns, and the result follows the same three
    cases as on nine cells.  Nothing is padded: a line with an index past
    the end of the array is never complete. *)
Theorem evaluate_any_length (board : Board) :
  length board ≠ 9 →
  evaluate board = Returned (calculateWinner board) ∧
  (∀ k l m,
     LINES !! k = Some l → holds board l m →
     (∀ j l', j < k → LINES !! j = Some l' → ¬ complete board l') →
     calculateWinner board = {| winner := Won m; line := line_of l |}) ∧
  ((∀ l, l ∈ LINES → ¬ complete board l) → full board →
     calculateWinner board = {| winner := Draw; line := [] |}) ∧
  ((∀ l, l ∈ LINES → ¬ complete board l) → ¬ full board →
     calculateWinner board = {| winner := NoWinner; line := [] |}) ∧
  (∀ l i, i ∈ line_of l → length board ≤ i → ¬ complete board l).
Proof.
  intros _. split; [done|].
  destruct (calculateWinner_cases board) as (Hw & Hd & Hn).
  split; [done|]. split; [done|]. split; [done|].
  intros l i Hi Hlen [m Hm]. specialize (Hm i Hi).
  apply lookup_lt_Some in Hm. lia.
Qed.

Lemma evaluate_any_length_witness :
  evaluate [Some X; Some X; Some X]
  = Returned {| winner := Won X; line := [0; 1; 2] |} ∧
  ¬ complete [Some X; Some X; Some X] (0, 3, 6).
Proof.
  pose proof (evaluate_any_length [Some X; Some X; Some X]
                ltac:(discriminate)) as (Hret & Hwin & _ & _ & Hpad).
  split.
  - rewrite Hret. apply (f_equal Returned), (Hwin 0 (0, 1, 2) X).
    + reflexivity.
    + apply holds_triple. repeat split; reflexivity.
    + intros j l' Hj. lia.
  - apply (Hpad (0, 3, 6) 3); [right; left|simpl; lia].
Defined.

(** ** The scenarios *)

(** On [X,O,X, O,X,O, _,_,_] X has an immediate win at 6 (the diagonal
    2, 4, 6), so it is the block rule that answers there. *)
Lemma board_last_row_open_threat :
  immediate_win board_last_row_open X 6 ∧
  ∀ r, computeAIMove board_last_row_open O X r = Some 6.
Proof.
  split; [by split|]. intros r. by apply computeAIMove_block.
Qed.

(** C8.  On [X,O,X, O,X,O, _,_,_] with the advisor playing O against X, the
    answer is 6 or 8, and not the side 7. *)
Theorem computeAIMove_last_row_open r :
  ∃ i, computeAIMove board_last_row_open O X r = Some i ∧
       i ∈ [6; 8] ∧ i ≠ 7.
Proof.
  exists 6. split; [by apply computeAIMove_block|].
  split; [left|lia].
Qed.

(** C9.  On [X,X,_, _,O,_, _,_,_] with the advisor playing O against X, the
    answer is 2: O has no immediate win, and 2 is the lowest cell on which
    X would win. *)
Theorem computeAIMove_top_row_threat r :
  computeAIMove board_top_row_threat O X r = Some 2 ∧
  (∀ i, ¬ immediate_win board_top_row_threat O i) ∧
  immediate_win board_top_row_threat X 2 ∧
  (∀ j, j < 2 → ¬ immediate_win board_top_row_threat X j).
Proof.
  assert (find (wins_with board_top_row_threat X)
            (availableMoves board_top_row_threat) = Some 2) as Hblock by done.
  split; [by apply computeAIMove_block|].
  split; [by apply find_win_None|].
  by apply find_win_Some.
Qed.

(** ** The transitions of [App] *)

Lemma board_scoreEffect s : board (scoreEffect s) = board s.
Proof. unfold scoreEffect. by destruct (decided _). Qed.

Lemma board_aiEffect s : board (aiEffect s) = board s.
Proof. unfold aiEffect. by destruct (_ || _). Qed.

Lemma aiTimer_scoreEffect s : aiTimer (scoreEffect s) = aiTimer s.
Proof. unfold scoreEffect. by destruct (decided _). Qed.

Lemma boardId_scoreEffect s : boardId (scoreEffect s) = boardId s.
Proof. unfold scoreEffect. by destruct (decided _). Qed.

(** The effects leave the board as the handler set it. *)
Lemma board_runEffects old new : board (runEffects old new) = board new.
Proof.
  unfold runEffects.
  destruct (_ || _); [rewrite board_aiEffect; simpl|];
    destruct (bool_decide (boardId new ≠ boardId old));
    by rewrite ?board_scoreEffect.
Qed.

(** After the effects, a pending timeout of the computer holds the current
    board, or is the one that was pending while the array in [board] is the
    same as before. *)
Lemma aiTimer_runEffects old new captured :
  aiTimer (runEffects old new) = Some captured →
  captured = board new ∨
  (boardId new = boardId old ∧ aiTimer new = Some captured).
Proof.
  unfold runEffects.
  destruct (bool_decide (boardId new ≠ boardId old)) eqn:Eid; simpl.
  - unfold aiEffect. destruct (_ || _); simpl; [done|].
    intros [= <-]. left. by rewrite board_scoreEffect.
  - apply bool_decide_eq_false in Eid.
    destruct (_ || _).
    + unfold aiEffect. destruct (_ || _); simpl; [done|].
      intros [= <-]. by left.
    + intros H. right. split; [|done].
      destruct (decide (boardId new = boardId old)); [done|]. by destruct Eid.
Qed.

(** A handler leaves the board and the pending timeout of the computer as
    they are, or clears the timeout, or puts a new array in [board]. *)
Lemma handle_same_array e s :
  boardId (handle e s) = boardId s →
  board (handle e s) = board s ∧
  (aiTimer (handle e s) = aiTimer s ∨ aiTimer (handle e s) = None).
Proof.
  destruct e as [i|r| | | |m]; simpl.
  - unfold handleSquareClick. destruct (_ || _); simpl; [by auto|].
    intros H. lia.
  - unfold aiTimeout. destruct (aiTimer s) as [captured|] eqn:Ea.
    + destruct (computeAIMove captured O X r); simpl; [|by auto].
      intros H. lia.
    + intros _. split; [done|]. by right.
  - unfold scoreTimeout. destruct (scoreTimers s); simpl; by auto.
  - intros H. lia.
  - intros H. lia.
  - intros H. lia.
Qed.

Lemma length_initialBoard : length initialBoard = 9.
Proof. reflexivity. Qed.

(** What each event does to the board, in a state where the invariant
    holds. *)
Lemma board_handle e s :
  app_inv s → enabled s e →
  if is_reset e then board (handle e s) = initialBoard
  else board (handle e s) = board s ∨
       fills_one_empty (board s) (board (handle e s)).
Proof.
  intros [Hlen Htimer] Hen. destruct e as [i|r| | | |m]; simpl; try done.
  - unfold handleSquareClick.
    destruct (decided _) eqn:Ed; simpl; [by left|].
    destruct (truthy (get (board s) i)) eqn:Et; simpl; [by left|].
    destruct (_ && _); simpl; [by left|].
    right. exists i, (if xIsNext s then X else O). split; [|done].
    simpl in Hen. apply lookup_lt_is_Some_2 in Hen as [c Hc].
    unfold empty_at. rewrite Hc. unfold get in Et. rewrite Hc in Et.
    by destruct c.
  - unfold aiTimeout. destruct (aiTimer s) as [captured|] eqn:Ea; [|by left].
    rewrite (Htimer captured eq_refl).
    destruct (computeAIMove (board s) O X r) as [move|] eqn:Em; simpl;
      [|by left].
    right. exists move, O. split; [|done].
    by apply computeAIMove_empty in Em.
  - unfold scoreTimeout. destruct (scoreTimers s); by left.
Qed.

Lemma fills_one_empty_length (b b' : Board) :
  fills_one_empty b b' → length b' = length b.
Proof. intros (i & m & _ & ->). apply copy_set_length. Qed.

(** A mark, once written, stays where it is. *)
Lemma fills_one_empty_keeps (b b' : Board) i m :
  fills_one_empty b b' → b !! i = Some (Some m) → b' !! i = Some (Some m).
Proof.
  intros (k & m' & He & ->) Hi. unfold copy_set, empty_at in *.
  destruct (decide (k = i)) as [->|Hne]; [congruence|].
  by rewrite list_lookup_insert_ne.
Qed.

Lemma app_inv_init : app_inv init.
Proof. split; [reflexivity|]. intros captured H. discriminate H. Qed.

Lemma app_inv_step s e : app_inv s → enabled s e → app_inv (step s e).
Proof.
  intros Hinv Hen. pose proof (board_handle e s Hinv Hen) as Hb.
  destruct Hinv as [Hlen Htimer]. unfold step. split.
  - rewrite board_runEffects. destruct (is_reset e).
    + by rewrite Hb.
    + destruct Hb as [->|Hb]; [done|].
      by rewrite (fills_one_empty_length _ _ Hb).
  - intros captured [->|[Hid Hc]]%aiTimer_runEffects;
      rewrite board_runEffects; [done|].
    destruct (handle_same_array e s Hid) as [-> [Ht|Ht]].
    + apply Htimer. congruence.
    + congruence.
Qed.

Lemma reachable_inv s : reachable s → app_inv s.
Proof.
  induction 1 as [|s e _ IH Hen]; [apply app_inv_init|by apply app_inv_step].
Qed.

(** A click on an occupied cell or on a decided board changes nothing. *)
Lemma handleSquareClick_ignored i s :
  truthy (get (board s) i) = true ∨
  winner (calculateWinner (board s)) ≠ NoWinner →
  handleSquareClick i s = s.
Proof.
  intros H. unfold handleSquareClick.
  destruct H as [->|H].
  - by rewrite orb_true_r.
  - destruct (winner (calculateWinner (board s))); done.
Qed.

Lemma runEffects_same s : runEffects s s = s.
Proof.
  unfold runEffects.
  rewrite !bool_decide_eq_false_2; [done|intros H; by apply H..].
Qed.

(** C10.  In every state that the events of the game lead to (clicks on the
    squares, the computer's timeout, the scoring timeout, and the resets:
    new round, reset of the scores, change of mode), the board has nine
    cells.  An event that is not a reset leaves the board as it is or writes
    a mark to exactly one cell that was empty, and a cell that holds a mark
    keeps it; a reset puts the empty board.  A click on a cell that holds a
    mark, or on a board with a winner or a draw, leaves the state as it
    is. *)
Theorem board_written_once s :
  reachable s →
  length (board s) = 9 ∧
  (∀ e, enabled s e →
     (if is_reset e then board (step s e) = initialBoard
      else (board (step s e) = board s ∨
            fills_one_empty (board s) (board (step s e))) ∧
           ∀ i m, board s !! i = Some (Some m) →
                  board (step s e) !! i = Some (Some m))) ∧
  (∀ i, truthy (get (board s) i) = true ∨
        winner (calculateWinner (board s)) ≠ NoWinner →
        step s (Click i) = s).
Proof.
  intros Hinv%reachable_inv. split; [apply Hinv|]. split.
  - intros e Hen. pose proof (board_handle e s Hinv Hen) as Hb.
    unfold step. rewrite board_runEffects.
    destruct (is_reset e); [done|]. split; [done|].
    intros i m Hi. destruct Hb as [->|Hb]; [done|].
    by apply (fills_one_empty_keeps (board s)).
  - intros i H. unfold step. simpl.
    rewrite (handleSquareClick_ignored i s H). apply runEffects_same.
Qed.

Lemma board_written_once_witness :
  reachable (step init (Click 4)) ∧
  length (board (step init (Click 4))) = 9 ∧
  step (step init (Click 4)) (Click 4) = step init (Click 4).
Proof.
  assert (reachable (step init (Click 4))) as Hr.
  { apply reachable_step; [apply reachable_init|]. simpl. lia. }
  split; [exact Hr|].
  destruct (board_written_once _ Hr) as (Hlen & _ & Hclick).
  split; [exact Hlen|]. apply Hclick. left. reflexivity.
Defined.

(** ** A round, step by step *)

(** The human takes the center: the mark is on the board, it is O's turn,
    and the computer's timeout is pending with that board. *)
Example round_click :
  let s := step init (Click 4) in
  board s = board_center_taken ∧ xIsNext s = false ∧
  aiThinking s = true ∧ aiTimer s = Some board_center_taken.
Proof. by repeat split. Qed.

(** While the computer is thinking, a click is ignored. *)
Example round_click_ignored :
  let s := step init (Click 4) in step s (Click 0) = s.
Proof. reflexivity. Qed.

(** The timeout fires: the computer takes a corner, and it is X's turn. *)
Example round_ai :
  let s := step (step init (Click 4)) (AiTimeout half) in
  board s = [None; None; None; None; Some X; None; Some O; None; None] ∧
  xIsNext s = true ∧ aiThinking s = false ∧ aiTimer s = None.
Proof. by repeat split. Qed.

(** A new round while the computer is thinking clears its timeout. *)
Example round_reset :
  let s := step (step init (Click 4)) NewRound in
  board s = initialBoard ∧ xIsNext s = true ∧ aiTimer s = None.
Proof. by repeat split. Qed.

(** X completes the top row in a game of two players: the round is decided,
    a scoring timeout is pending, and further clicks are ignored. *)
Example round_pvp_win :
  let s := foldl step init
             [SetMode pvp; Click 0; Click 3; Click 1; Click 4; Click 2] in
  calculateWinner (board s) = {| winner := Won X; line := [0; 1; 2] |} ∧
  scoreTimers s = [Won X] ∧
  step s (Click 5) = s ∧
  score_x (scores (step s ScoreTimeout)) = 1.
Proof. by repeat split. Qed.

(** * Further properties *)

(** ** availableMoves *)

Lemma availableMoves_lookup_lt (board : Board) j k a b :
  j < k → availableMoves board !! j = Some a →
  availableMoves board !! k = Some b → a < b.
Proof.
  revert j k a b. induction board as [|c board IH]; intros j k a b Hjk.
  { by intros ?. }
  rewrite availableMoves_cons.
  assert (∀ j k a b, j < k →
            (S <$> availableMoves board) !! j = Some a →
            (S <$> availableMoves board) !! k = Some b → a < b) as Htail.
  { intros j' k' a' b' Hlt. rewrite !list_lookup_fmap.
    destruct (availableMoves board !! j') as [a0|] eqn:Ea; [|done].
    destruct (availableMoves board !! k') as [b0|] eqn:Eb; [|done].
    intros [= <-] [= <-]. pose proof (IH _ _ _ _ Hlt Ea Eb). lia. }
  destruct (truthy (of_cell c)); simpl; [by apply Htail|].
  destruct j as [|j], k as [|k]; simpl; try lia.
  - intros [= <-]. rewrite list_lookup_fmap.
    destruct (availableMoves board !! k); [|done]. intros [= <-]. lia.
  - apply Htail. lia.
Qed.

(** X1.  [availableMoves] lists the indices of the cells that hold [null],
    each once, in ascending order. *)
Theorem availableMoves_ascending (board : Board) :
  (∀ i, i ∈ availableMoves board ↔ board !! i = Some None) ∧
  (∀ j k a b, j < k → availableMoves board !! j = Some a →
              availableMoves board !! k = Some b → a < b).
Proof.
  split; [apply elem_of_availableMoves|apply availableMoves_lookup_lt].
Qed.

Lemma count_mark_cons m c (board : Board) :
  count_mark m (c :: board)
  = (if decide (c = Some m) then 1 else 0) + count_mark m board.
Proof.
  unfold count_mark. rewrite filter_cons. by destruct (decide (c = Some m)).
Qed.

Lemma length_availableMoves_cons c (board : Board) :
  length (availableMoves (c :: board))
  = (if truthy (of_cell c) then 0 else 1) + length (availableMoves board).
Proof.
  rewrite availableMoves_cons, length_app, length_fmap.
  by destruct (truthy (of_cell c)).
Qed.

Lemma count_cells (board : Board) :
  count_mark X board + count_mark O board + length (availableMoves board)
  = length board.
Proof.
  induction board as [|c board IH]; [done|].
  rewrite !count_mark_cons, length_availableMoves_cons. simpl length.
  destruct c as [[|]|]; simpl; repeat case_decide; simplify_eq; lia.
Qed.

(** ** calculateWinner *)

Lemma full_availableMoves (board : Board) :
  full board ↔ availableMoves board = [].
Proof.
  rewrite availableMoves_nil. unfold full. split.
  - intros Hf i Hi. by apply (Hf i None).
  - intros Hn i c Hc ->. by apply (Hn i).
Qed.

Lemma for_lines_in_LINES (board : Board) r :
  for_lines LINES board = Some r →
  ∃ l m, l ∈ LINES ∧ holds board l m ∧
         r = {| winner := Won m; line := line_of l |}.
Proof.
  intros (k & l & m & Hk & Hm & _ & ->)%for_lines_Some.
  exists l, m. split; [by eapply list_elem_of_lookup_2|done].
Qed.

(** X2.  What [calculateWinner] reports is on the board: with a mark as
    winner, [line] is one of the eight lines and its three cells hold that
    mark; with a draw or no winner, [line] is empty. *)
Theorem calculateWinner_sound (board : Board) :
  match winner (calculateWinner board) with
  | Won m => ∃ l, l ∈ LINES ∧ line (calculateWinner board) = line_of l ∧
                  holds board l m
  | _ => line (calculateWinner board) = []
  end.
Proof.
  unfold calculateWinner.
  destruct (for_lines LINES board) as [r|] eqn:E.
  - apply for_lines_in_LINES in E as (l & m & Hl & Hm & ->). simpl. eauto.
  - by destruct (forallb _ board).
Qed.

Lemma winner_NoWinner (board : Board) :
  winner (calculateWinner board) = NoWinner ↔
  (∀ l, l ∈ LINES → ¬ complete board l) ∧ availableMoves board ≠ [].
Proof.
  rewrite <- full_availableMoves, <- for_lines_None, <- forallb_truthy_full.
  unfold calculateWinner.
  destruct (for_lines LINES board) as [r|] eqn:E.
  - apply for_lines_in_LINES in E as (l & m & _ & _ & ->). simpl.
    split; [done|]. by intros [? _].
  - destruct (forallb _ board); simpl; intuition congruence.
Qed.

Lemma winner_Draw (board : Board) :
  winner (calculateWinner board) = Draw ↔
  (∀ l, l ∈ LINES → ¬ complete board l) ∧ availableMoves board = [].
Proof.
  rewrite <- full_availableMoves, <- for_lines_None, <- forallb_truthy_full.
  unfold calculateWinner.
  destruct (for_lines LINES board) as [r|] eqn:E.
  - apply for_lines_in_LINES in E as (l & m & _ & _ & ->). simpl.
    split; [done|]. by intros [? _].
  - destruct (forallb _ board); simpl; intuition congruence.
Qed.

Lemma winner_Won (board : Board) m :
  winner (calculateWinner board) = Won m →
  ∃ l, l ∈ LINES ∧ holds board l m.
Proof.
  intros Hw.
  unfold calculateWinner in Hw.
  destruct (for_lines LINES board) as [r|] eqn:E.
  - apply for_lines_in_LINES in E as (l & m' & Hl & Hm & ->).
    simpl in Hw. injection Hw as ->. eauto.
  - by destruct (forallb _ board).
Qed.

Lemma decided_iff (board : Board) :
  decided (winner (calculateWinner board)) = false ↔
  winner (calculateWinner board) = NoWinner.
Proof. by destruct (winner (calculateWinner board)). Qed.

(** X3.  The verdict in terms of the lines and of [availableMoves]: no
    winner exactly when no line is complete and a move is available, a draw
    exactly when no line is complete and no move is available. *)
Theorem calculateWinner_verdict (board : Board) :
  (winner (calculateWinner board) = NoWinner ↔
   (∀ l, l ∈ LINES → ¬ complete board l) ∧ availableMoves board ≠ []) ∧
  (winner (calculateWinner board) = Draw ↔
   (∀ l, l ∈ LINES → ¬ complete board l) ∧ availableMoves board = []).
Proof. split; [apply winner_NoWinner|apply winner_Draw]. Qed.

Lemma undecided_has_move (board : Board) ai human r :
  winner (calculateWinner board) = NoWinner →
  ∃ i, computeAIMove board ai human r = Some i ∧ empty_at board i.
Proof.
  intros [_ Hne]%winner_NoWinner.
  destruct (computeAIMove board ai human r) as [i|] eqn:E.
  - exists i. split; [done|]. by apply computeAIMove_empty in E.
  - destruct Hne. apply availableMoves_nil. intros i.
    apply (proj1 (computeAIMove_None _ _ _ _) E).
Qed.

(** X4.  While [calculateWinner] reports no winner, [computeAIMove] answers
    a move, never [null], and the move is an empty cell within the board:
    the guard [move !== null] of the caller always passes. *)
Theorem computeAIMove_in_progress (board : Board) ai human r :
  winner (calculateWinner board) = NoWinner →
  ∃ i, computeAIMove board ai human r = Some i ∧
       board !! i = Some None ∧ i < length board.
Proof.
  intros Hw. destruct (undecided_has_move board ai human r Hw) as (i & Hi & He).
  exists i. repeat split; [done..|]. by apply lookup_lt_Some in He.
Qed.

Lemma computeAIMove_in_progress_witness :
  ∃ i, computeAIMove board_top_row_threat O X half = Some i ∧
       board_top_row_threat !! i = Some None ∧
       i < length board_top_row_threat.
Proof.
  apply (computeAIMove_in_progress board_top_row_threat O X half).
  reflexivity.
Defined.

(** A complete line stays complete when an empty cell is written. *)
Lemma holds_copy_set (board : Board) l m i m' :
  empty_at board i → holds board l m → holds (copy_set board i m') l m.
Proof.
  intros He Hh k Hk. specialize (Hh k Hk). unfold copy_set, empty_at in *.
  destruct (decide (i = k)) as [->|Hne]; [congruence|].
  by rewrite list_lookup_insert_ne.
Qed.

(** X5.  A decided board stays decided: after a mark is written to an empty
    cell of a board with a winner, [calculateWinner] still reports a
    winner. *)
Theorem decided_stays (board : Board) i m :
  winner (calculateWinner board) ≠ NoWinner →
  empty_at board i →
  ∃ m', winner (calculateWinner (copy_set board i m)) = Won m'.
Proof.
  intros Hw He.
  destruct (winner (calculateWinner board)) as [m0| |] eqn:E; [| |done].
  - apply winner_Won in E as (l & Hl & Hh).
    pose proof (holds_copy_set board l m0 i m He Hh) as Hh'.
    destruct (winner (calculateWinner (copy_set board i m))) as [m'| |] eqn:E'.
    + by exists m'.
    + apply winner_Draw in E' as [Hno _]. destruct (Hno l Hl). by exists m0.
    + apply winner_NoWinner in E' as [Hno _]. destruct (Hno l Hl).
      by exists m0.
  - apply winner_Draw in E as [_ Hnil].
    by destruct (proj1 (availableMoves_nil board) Hnil i).
Qed.

Lemma decided_stays_witness :
  ∃ m', winner (calculateWinner (copy_set board_two_rows 7 O)) = Won m'.
Proof.
  apply (decided_stays board_two_rows 7 O); [discriminate|reflexivity].
Defined.

(** ** Exchanging the marks *)

Lemma other_inj m m' : other m = other m' → m = m'.
Proof. by destruct m, m'. Qed.

Lemma get_swap_marks (board : Board) i :
  get (swap_marks board) i = swap_value (get board i).
Proof.
  unfold get, swap_marks. rewrite list_lookup_fmap.
  by destruct (board !! i) as [[m|]|].
Qed.

Lemma line_check_swap (board : Board) l :
  line_check (swap_marks board) l = swap_result <$> line_check board l.
Proof.
  destruct l as [[a b] c]. unfold line_check.
  rewrite !get_swap_marks.
  destruct (get board a) as [| |[|]], (get board b) as [| |[|]],
    (get board c) as [| |[|]]; reflexivity.
Qed.

Lemma for_lines_swap lines (board : Board) :
  for_lines lines (swap_marks board) = swap_result <$> for_lines lines board.
Proof.
  induction lines as [|l lines IH]; [done|]. simpl.
  rewrite line_check_swap. by destruct (line_check board l).
Qed.

Lemma forallb_swap (board : Board) :
  forallb (λ c, truthy (of_cell c)) (swap_marks board)
  = forallb (λ c, truthy (of_cell c)) board.
Proof.
  induction board as [|c board IH]; [done|].
  simpl. rewrite IH. by destruct c.
Qed.

Lemma calculateWinner_swap (board : Board) :
  calculateWinner (swap_marks board) = swap_result (calculateWinner board).
Proof.
  unfold calculateWinner. rewrite for_lines_swap, forallb_swap.
  destruct (for_lines LINES board); simpl; [done|].
  by destruct (forallb _ board).
Qed.

Lemma availableMoves_swap (board : Board) :
  availableMoves (swap_marks board) = availableMoves board.
Proof.
  induction board as [|c board IH]; [done|].
  change (swap_marks (c :: board)) with ((other <$> c) :: swap_marks board).
  rewrite !availableMoves_cons, IH. by destruct c.
Qed.

Lemma copy_set_swap (board : Board) i m :
  copy_set (swap_marks board) i (other m) = swap_marks (copy_set board i m).
Proof. unfold copy_set, swap_marks. by rewrite list_fmap_insert. Qed.

Lemma wins_with_swap (board : Board) m i :
  wins_with (swap_marks board) (other m) i = wins_with board m i.
Proof.
  unfold wins_with. rewrite copy_set_swap, calculateWinner_swap.
  apply bool_decide_ext. unfold swap_result. simpl.
  destruct (winner (calculateWinner (copy_set board i m))) as [m'| |];
    split; try done.
  - by intros [= ->%other_inj].
  - by intros [= ->].
Qed.

Lemma find_ext {A} (f g : A → bool) (l : list A) :
  (∀ x, f x = g x) → find f l = find g l.
Proof.
  intros Hfg. induction l as [|x l IH]; [done|].
  simpl. by rewrite Hfg, IH.
Qed.

Lemma candidates_swap (board : Board) (idxs : list nat) :
  filter (λ i, get (swap_marks board) i = null) idxs
  = filter (λ i, get board i = null) idxs.
Proof.
  apply list_filter_iff. intros i. rewrite get_swap_marks.
  by destruct (get board i).
Qed.

(** X6.  The rules do not tell the marks apart.  On the board with X and O
    exchanged, [calculateWinner] reports the same line with the winner
    exchanged, and [computeAIMove], playing the exchanged marks, answers the
    same cell. *)
Theorem marks_exchanged (board : Board) ai human r :
  calculateWinner (swap_marks board) = swap_result (calculateWinner board) ∧
  computeAIMove (swap_marks board) (other ai) (other human) r
  = computeAIMove board ai human r.
Proof.
  split; [apply calculateWinner_swap|].
  unfold computeAIMove.
  rewrite availableMoves_swap, !candidates_swap, get_swap_marks.
  rewrite (find_ext _ _ _ (wins_with_swap board ai)).
  rewrite (find_ext _ _ _ (wins_with_swap board human)).
  destruct (find (wins_with board ai) _); [done|].
  destruct (find (wins_with board human) _); [done|].
  by destruct (get board 4).
Qed.

(** ** computeAIMove: the fallback and the random draw *)

(** X7.  The fallback [moves[0]] answers only for an empty cell past the
    ninth: when neither mark has an immediate win and none of the cells 0 to
    8 is empty, the answer is the lowest empty cell of the array, and on an
    array of at most nine cells it is [null]. *)
Theorem computeAIMove_fallback (board : Board) ai human r :
  (∀ i, ¬ immediate_win board ai i) →
  (∀ i, ¬ immediate_win board human i) →
  (∀ i, i < 9 → ¬ empty_at board i) →
  computeAIMove board ai human r = head (availableMoves board) ∧
  (∀ k, empty_at board k → (∀ j, j < k → ¬ empty_at board j) →
        computeAIMove board ai human r = Some k ∧ 9 ≤ k) ∧
  (length board ≤ 9 → computeAIMove board ai human r = None).
Proof.
  intros H1%find_win_None H2%find_win_None Hfull.
  assert (computeAIMove board ai human r = head (availableMoves board))
    as Hhead.
  { rewrite (computeAIMove_rest board ai human r H1 H2);
      [|apply Hfull; lia]. cbv zeta.
    rewrite (proj2 (candidates_nil board [0; 2; 6; 8]));
      [|intros i Hi; apply Hfull; elem_cases Hi; lia].
    rewrite (proj2 (candidates_nil board [1; 3; 5; 7]));
      [|intros i Hi; apply Hfull; elem_cases Hi; lia].
    done. }
  split; [done|]. split.
  - intros k Hk Hmin. rewrite Hhead.
    assert (9 ≤ k) as Hge.
    { destruct (decide (k < 9)) as [Hlt|]; [|lia]. by destruct (Hfull k). }
    split; [|done].
    destruct (availableMoves board) as [|a l] eqn:E.
    { by destruct (proj1 (availableMoves_nil board) E k). }
    simpl. f_equal.
    assert (empty_at board a) as Ha
      by (apply elem_of_availableMoves; rewrite E; left).
    destruct (decide (a < k)) as [Hlt|Hnlt]; [by destruct (Hmin a)|].
    destruct (decide (a = k)) as [|Hne]; [done|].
    assert (k ∈ a :: l) as Hin by (rewrite <- E; by apply elem_of_availableMoves).
    apply list_elem_of_lookup_1 in Hin as [n Hn].
    destruct n as [|n]; [simpl in Hn; congruence|].
    assert (a < k); [|lia].
    apply (availableMoves_lookup_lt board 0 (S n)); [lia|by rewrite E..].
  - intros Hlen. rewrite Hhead.
    rewrite (proj2 (availableMoves_nil board)); [done|].
    intros i Hi. pose proof (lookup_lt_Some _ _ _ Hi).
    apply (Hfull i); [lia|done].
Qed.

Lemma computeAIMove_fallback_witness :
  computeAIMove board_ten_cells O X half = Some 9 ∧
  computeAIMove board_drawn O X half = None.
Proof.
  split.
  - apply (computeAIMove_fallback board_ten_cells O X half).
    + by apply find_win_None.
    + by apply find_win_None.
    + intros i Hi He. unfold empty_at in He.
      do 9 (destruct i as [|i]; [discriminate He|]). lia.
    + reflexivity.
    + intros j Hj He. unfold empty_at in He.
      do 9 (destruct j as [|j]; [discriminate He|]). lia.
  - apply (computeAIMove_fallback board_drawn O X half).
    + by apply find_win_None.
    + by apply find_win_None.
    + intros i Hi He. unfold empty_at in He.
      do 9 (destruct i as [|i]; [discriminate He|]). lia.
    + simpl. lia.
Defined.

(** X8.  The random draw decides only among the empty corners, or among the
    empty sides: two draws on the same board give the same cell, or two
    corners, or two sides. *)
Theorem computeAIMove_draws (board : Board) ai human r r' i i' :
  computeAIMove board ai human r = Some i →
  computeAIMove board ai human r' = Some i' →
  i = i' ∨
  (i ∈ [0; 2; 6; 8] ∧ i' ∈ [0; 2; 6; 8]) ∨
  (i ∈ [1; 3; 5; 7] ∧ i' ∈ [1; 3; 5; 7]).
Proof.
  destruct (find (wins_with board ai) (availableMoves board)) as [w|] eqn:E1.
  { rewrite !(computeAIMove_win _ _ _ _ _ E1). left. congruence. }
  destruct (find (wins_with board human) (availableMoves board))
    as [w|] eqn:E2.
  { rewrite !(computeAIMove_block _ _ _ _ _ E1 E2). left. congruence. }
  destruct (decide (board !! 4 = Some None)) as [E4|E4].
  { rewrite !(computeAIMove_center _ _ _ _ E1 E2 E4). left. congruence. }
  rewrite !(computeAIMove_rest _ _ _ _ E1 E2 E4). cbv zeta.
  destruct (filter _ [0; 2; 6; 8]) as [|c cs] eqn:Ec.
  - destruct (filter _ [1; 3; 5; 7]) as [|d ds] eqn:Ed.
    + left. congruence.
    + intros Hi%list_elem_of_lookup_2 Hi'%list_elem_of_lookup_2.
      rewrite <- Ed in Hi, Hi'.
      apply elem_of_candidates in Hi as [? _], Hi' as [? _]. auto.
  - intros Hi%list_elem_of_lookup_2 Hi'%list_elem_of_lookup_2.
    rewrite <- Ec in Hi, Hi'.
    apply elem_of_candidates in Hi as [? _], Hi' as [? _]. auto.
Qed.

Lemma computeAIMove_draws_witness :
  computeAIMove board_center_taken O X zero_draw = Some 0 ∧
  computeAIMove board_center_taken O X half = Some 6 ∧
  (0 = 6 ∨ (0 ∈ [0; 2; 6; 8] ∧ 6 ∈ [0; 2; 6; 8]) ∨
   (0 ∈ [1; 3; 5; 7] ∧ 6 ∈ [1; 3; 5; 7])).
Proof.
  split; [reflexivity|]. split; [reflexivity|].
  apply (computeAIMove_draws board_center_taken O X zero_draw half);
    reflexivity.
Defined.

Lemma computeAIMove_any_corner_witness :
  ∃ r, computeAIMove board_center_taken O X r = Some 8.
Proof.
  apply (computeAIMove_any_corner board_center_taken O X 8).
  - by apply find_win_None.
  - by apply find_win_None.
  - discriminate.
  - do 3 right. left.
  - reflexivity.
Defined.

(** ** The effects after a handler *)

(** The effects when the array in [board] is a new one. *)
Lemma runEffects_new_array old new :
  boardId new ≠ boardId old →
  runEffects old new = aiEffect (aiCleanup (scoreEffect new)).
Proof.
  intros Hid. unfold runEffects.
  by rewrite (bool_decide_eq_true_2 _ Hid).
Qed.

(** No effect runs when no dependency changed. *)
Lemma runEffects_same_deps old new :
  boardId new = boardId old → mode new = mode old →
  xIsNext new = xIsNext old →
  runEffects old new = new.
Proof.
  intros Hid Hm Hx. unfold runEffects.
  rewrite !bool_decide_eq_false_2; [done|intros H; by apply H..].
Qed.

Lemma effects_fields s :
  let s' := aiEffect (aiCleanup (scoreEffect s)) in
  let w := winner (calculateWinner (board s)) in
  board s' = board s ∧ boardId s' = boardId s ∧ xIsNext s' = xIsNext s ∧
  mode s' = mode s ∧ scores s' = scores s ∧
  aiThinking s' = (if aiTurn s then true else aiThinking s) ∧
  aiTimer s' = (if aiTurn s then Some (board s) else None) ∧
  scoreTimers s' = scoreTimers s ++ (if decided w then [w] else []).
Proof.
  destruct s as [b id x m sc th tm st].
  unfold aiEffect, aiCleanup, scoreEffect, aiTurn.
  cbn [board boardId xIsNext mode scores aiThinking aiTimer scoreTimers].
  destruct (decided (winner (calculateWinner b))) eqn:Ed;
    cbn [board boardId xIsNext mode scores aiThinking aiTimer scoreTimers];
    rewrite ?Ed; destruct m, x;
    cbn [board boardId xIsNext mode scores aiThinking aiTimer scoreTimers
         negb andb orb];
    rewrite ?app_nil_r; repeat split; reflexivity.
Qed.

Lemma aiTurn_ext s s' :
  board s' = board s → mode s' = mode s → xIsNext s' = xIsNext s →
  aiTurn s' = aiTurn s.
Proof. unfold aiTurn. by intros -> -> ->. Qed.

Lemma aiTurn_xIsNext s : xIsNext s = true → aiTurn s = false.
Proof. unfold aiTurn. intros ->. by rewrite andb_false_r. Qed.

Lemma aiTurn_true s :
  aiTurn s = true ↔
  mode s = pvc ∧ winner (calculateWinner (board s)) = NoWinner ∧
  xIsNext s = false.
Proof.
  unfold aiTurn. rewrite !andb_true_iff, bool_decide_eq_true, !negb_true_iff.
  rewrite decided_iff. tauto.
Qed.

(** ** Counting marks *)

Lemma count_mark_copy_set (board : Board) i m mk :
  empty_at board i →
  count_mark m (copy_set board i mk)
  = count_mark m board + (if decide (m = mk) then 1 else 0).
Proof.
  unfold empty_at, copy_set. revert i.
  induction board as [|c board IH]; intros i Hi; [done|].
  destruct i as [|i]; simpl in *.
  - injection Hi as ->. rewrite !count_mark_cons.
    repeat case_decide; simplify_eq; lia.
  - rewrite !count_mark_cons, (IH i Hi). lia.
Qed.

(** X9.  Every cell is counted once: the cells that hold X, those that hold
    O and the available moves add up to the length of the board, and
    writing a mark to an empty cell takes one move away. *)
Theorem cells_partition (board : Board) :
  count_mark X board + count_mark O board + length (availableMoves board)
  = length board ∧
  ∀ i m, board !! i = Some None →
         length (availableMoves (copy_set board i m)) + 1
         = length (availableMoves board).
Proof.
  split; [apply count_cells|].
  intros i m He.
  pose proof (count_cells board) as H0.
  pose proof (count_cells (copy_set board i m)) as H1.
  rewrite copy_set_length in H1.
  rewrite !count_mark_copy_set in H1 by done.
  destruct m; repeat case_decide; simplify_eq; lia.
Qed.

Lemma cells_partition_witness :
  length (availableMoves (copy_set board_center_taken 0 O)) + 1
  = length (availableMoves board_center_taken).
Proof.
  apply (proj2 (cells_partition board_center_taken) 0 O). reflexivity.
Defined.

Lemma count_mark_initialBoard m : count_mark m initialBoard = 0.
Proof. reflexivity. Qed.

(** ** One winner *)

Lemma holds_after_write (board : Board) i mk l m :
  (∀ l, l ∈ LINES → ¬ complete board l) → empty_at board i →
  l ∈ LINES → holds (copy_set board i mk) l m → m = mk.
Proof.
  intros Hno He Hl Hh.
  destruct (decide (i ∈ line_of l)) as [Hin|Hnin].
  - specialize (Hh i Hin). unfold copy_set in Hh.
    rewrite list_lookup_insert_eq in Hh; [congruence|].
    by apply lookup_lt_Some in He.
  - destruct (Hno l Hl). exists m. intros k Hk.
    specialize (Hh k Hk). unfold copy_set in Hh.
    rewrite list_lookup_insert_ne in Hh; [done|]. by intros ->.
Qed.

Lemma one_winner_after_write (board : Board) i mk :
  winner (calculateWinner board) = NoWinner → empty_at board i →
  one_winner (copy_set board i mk).
Proof.
  intros [Hno _]%winner_NoWinner He l l' m m' Hl Hl' Hh Hh'.
  rewrite (holds_after_write board i mk l m Hno He Hl Hh).
  by rewrite (holds_after_write board i mk l' m' Hno He Hl' Hh').
Qed.

Lemma one_winner_initialBoard : one_winner initialBoard.
Proof.
  intros l l' m m' Hl _ Hh _. exfalso.
  destruct l as [[a b] c]. apply holds_triple in Hh as [Ha _].
  apply lookup_replicate in Ha as [? _]. done.
Qed.

(** ** The invariant of the game *)

Lemma timer_iff (t : bool) (b : Board) :
  ((if t then true else false) = true ↔
   is_Some (if t then Some b else None)) ∧
  (is_Some (if t then Some b else None) ↔ t = true).
Proof.
  destruct t; repeat split; try done; try (by eexists);
    intros [? H]; discriminate H.
Qed.

Lemma game_inv_init : game_inv init.
Proof.
  split; [apply (timer_iff false initialBoard)|].
  split; [apply (timer_iff false initialBoard)|].
  split; [reflexivity|apply one_winner_initialBoard].
Qed.

(** After a handler that wrote the mark of the turn to an empty cell of an
    undecided board. *)
Lemma game_inv_write s new i :
  game_inv s →
  winner (calculateWinner (board s)) = NoWinner → empty_at (board s) i →
  board new = copy_set (board s) i (if xIsNext s then X else O) →
  xIsNext new = negb (xIsNext s) → aiThinking new = false →
  boardId new ≠ boardId s →
  game_inv (runEffects s new).
Proof.
  intros (_ & _ & Hcount & _) Hw He Hb Hx Hth Hid.
  rewrite (runEffects_new_array _ _ Hid).
  destruct (effects_fields new) as (Eb & _ & Ex & Em & _ & Eth & Etm & _).
  unfold game_inv.
  rewrite Eth, Etm, Hth, (aiTurn_ext new _ Eb Em Ex), Eb, Ex, Hb, Hx.
  split; [apply timer_iff|]. split; [apply timer_iff|]. split.
  - rewrite !count_mark_copy_set by done.
    destruct (xIsNext s); simpl; repeat case_decide; simplify_eq; lia.
  - by apply one_winner_after_write.
Qed.

(** After a handler that put the empty board. *)
Lemma game_inv_reset s new :
  board new = initialBoard → xIsNext new = true → aiThinking new = false →
  boardId new ≠ boardId s →
  game_inv (runEffects s new).
Proof.
  intros Hb Hx Hth Hid.
  rewrite (runEffects_new_array _ _ Hid).
  destruct (effects_fields new) as (Eb & _ & Ex & Em & _ & Eth & Etm & _).
  unfold game_inv.
  rewrite Eth, Etm, Hth, (aiTurn_ext new _ Eb Em Ex), Eb, Ex, Hb, Hx.
  rewrite (aiTurn_xIsNext new Hx).
  split; [apply (timer_iff false initialBoard)|].
  split; [apply (timer_iff false initialBoard)|].
  split; [reflexivity|apply one_winner_initialBoard].
Qed.

(** An accepted click: the guard of [handleSquareClick] is passed. *)
Lemma handleSquareClick_cases i s :
  handleSquareClick i s = s ∨
  (winner (calculateWinner (board s)) = NoWinner ∧
   truthy (get (board s) i) = false ∧
   (mode s = pvc → aiThinking s = false) ∧
   handleSquareClick i s =
     {| board := copy_set (board s) i (if xIsNext s then X else O);
        boardId := S (boardId s); xIsNext := negb (xIsNext s);
        mode := mode s; scores := scores s; aiThinking := aiThinking s;
        aiTimer := aiTimer s; scoreTimers := scoreTimers s |}).
Proof.
  unfold handleSquareClick.
  destruct (decided _) eqn:Ed; simpl; [by left|].
  destruct (truthy _) eqn:Et; simpl; [by left|].
  destruct (bool_decide (mode s = pvc)) eqn:Em; simpl.
  - destruct (aiThinking s) eqn:Eth; [by left|].
    right. by rewrite <- decided_iff.
  - right. apply bool_decide_eq_false in Em. by rewrite <- decided_iff.
Qed.

Lemma not_truthy_empty (board : Board) i :
  i < length board → truthy (get board i) = false → empty_at board i.
Proof.
  intros [c Hc]%lookup_lt_is_Some_2. unfold get, empty_at.
  rewrite Hc. by destruct c.
Qed.

(** The computer's timeout, in a state where the invariants hold. *)
Lemma aiTimeout_cases r s :
  app_inv s → game_inv s → aiTimer s ≠ None →
  mode s = pvc ∧ xIsNext s = false ∧
  winner (calculateWinner (board s)) = NoWinner ∧
  ∃ move, computeAIMove (board s) O X r = Some move ∧
          empty_at (board s) move ∧
          aiTimeout r s =
            {| board := copy_set (board s) move O; boardId := S (boardId s);
               xIsNext := true; mode := mode s; scores := scores s;
               aiThinking := false; aiTimer := None;
               scoreTimers := scoreTimers s |}.
Proof.
  intros [_ Hcap] (_ & Hturn & _) Hen.
  destruct (aiTimer s) as [captured|] eqn:Etm; [|done].
  assert (aiTurn s = true) as (Hm & Hw & Hx)%aiTurn_true
    by (apply Hturn; eauto).
  repeat split; [done..|].
  destruct (undecided_has_move (board s) O X r Hw) as (move & Hmove & He).
  exists move. repeat split; [done..|].
  unfold aiTimeout. by rewrite Etm, (Hcap captured eq_refl), Hmove.
Qed.

Lemma game_inv_step s e :
  app_inv s → game_inv s → enabled s e → game_inv (step s e).
Proof.
  intros Hinv Hg Hen. unfold step.
  destruct e as [i|r| | | |m]; simpl in *.
  - destruct (handleSquareClick_cases i s) as [->|(Hw & Ht & Hth & ->)].
    + by rewrite runEffects_same.
    + apply (game_inv_write s _ i); simpl; try done.
      * by apply not_truthy_empty.
      * destruct Hg as (Hth' & Hturn & _).
        destruct (aiThinking s) eqn:E; [|done].
        assert (aiTurn s = true) as (Hm & _)%aiTurn_true
          by (apply Hturn, Hth'; done).
        by apply Hth.
  - destruct (aiTimeout_cases r s Hinv Hg Hen)
      as (_ & Hx & Hw & move & _ & He & ->).
    apply (game_inv_write s _ move); simpl; try done; by rewrite Hx.
  - unfold scoreTimeout. destruct (scoreTimers s) as [|w rest];
      [by rewrite runEffects_same|].
    by rewrite runEffects_same_deps.
  - by apply game_inv_reset.
  - by apply game_inv_reset.
  - by apply game_inv_reset.
Qed.

Lemma reachable_game_inv s : reachable s → app_inv s ∧ game_inv s.
Proof.
  induction 1 as [|s e _ [IH1 IH2] Hen].
  - split; [apply app_inv_init|apply game_inv_init].
  - split; [by apply app_inv_step|by apply game_inv_step].
Qed.

(** ** The game, state by state *)

Lemma reachable_after_click : reachable (step init (Click 4)).
Proof. apply reachable_step; [apply reachable_init|]. simpl. lia. Qed.

(** X10.  The turns alternate from X: in every reachable state X has as many
    marks as O when it is X's turn and one more when it is O's, so X never
    has more than five marks and O never more than four. *)
Theorem turn_parity s :
  reachable s →
  count_mark X (board s)
  = count_mark O (board s) + (if xIsNext s then 0 else 1) ∧
  count_mark X (board s) ≤ 5 ∧ count_mark O (board s) ≤ 4.
Proof.
  intros [[Hlen _] (_ & _ & Hcount & _)]%reachable_game_inv.
  split; [done|].
  pose proof (count_cells (board s)) as Hp. rewrite Hlen in Hp.
  destruct (xIsNext s); lia.
Qed.

Lemma turn_parity_witness :
  count_mark X (board (step init (Click 4)))
  = count_mark O (board (step init (Click 4)))
    + (if xIsNext (step init (Click 4)) then 0 else 1) ∧
  count_mark X (board (step init (Click 4))) ≤ 5 ∧
  count_mark O (board (step init (Click 4))) ≤ 4.
Proof. apply (turn_parity _ reachable_after_click). Defined.

(** X11.  In every reachable state all the complete lines hold the same
    mark: X and O never both have a line. *)
Theorem winner_unique s :
  reachable s →
  ∀ l l' m m', l ∈ LINES → l' ∈ LINES →
               holds (board s) l m → holds (board s) l' m' → m = m'.
Proof. intros [_ (_ & _ & _ & Hone)]%reachable_game_inv. apply Hone. Qed.

(** X12.  In every reachable state the computer is thinking exactly when its
    timeout is pending, and that is exactly when the mode is [pvc], it is
    O's turn and the board has no winner and is not a draw. *)
Theorem thinking_iff s :
  reachable s →
  (aiThinking s = true ↔ is_Some (aiTimer s)) ∧
  (aiThinking s = true ↔
   mode s = pvc ∧ winner (calculateWinner (board s)) = NoWinner ∧
   xIsNext s = false).
Proof.
  intros [_ (Hth & Hturn & _)]%reachable_game_inv.
  split; [done|]. by rewrite Hth, Hturn, aiTurn_true.
Qed.

Lemma thinking_iff_witness :
  (aiThinking (step init (Click 4)) = true ↔
   is_Some (aiTimer (step init (Click 4)))) ∧
  (aiThinking (step init (Click 4)) = true ↔
   mode (step init (Click 4)) = pvc ∧
   winner (calculateWinner (board (step init (Click 4)))) = NoWinner ∧
   xIsNext (step init (Click 4)) = false).
Proof. apply (thinking_iff _ reachable_after_click). Defined.

(** X13.  In the mode [pvc] the clicks play X and the computer plays O.  A
    click changes nothing or writes X, and only on X's turn; the computer's
    timeout writes O at the cell that [computeAIMove] answers for the
    current board, gives the turn to X and ends the thinking. *)
Theorem pvc_marks s :
  reachable s → mode s = pvc →
  (∀ i, enabled s (Click i) →
        step s (Click i) = s ∨
        (xIsNext s = true ∧
         board (step s (Click i)) = copy_set (board s) i X ∧
         xIsNext (step s (Click i)) = false)) ∧
  (∀ r, enabled s (AiTimeout r) →
        ∃ move, computeAIMove (board s) O X r = Some move ∧
                board (step s (AiTimeout r)) = copy_set (board s) move O ∧
                xIsNext (step s (AiTimeout r)) = true ∧
                aiThinking (step s (AiTimeout r)) = false).
Proof.
  intros Hr Hm.
  destruct (reachable_game_inv s Hr) as [Hinv Hg]. split.
  - intros i _. unfold step. simpl.
    destruct (handleSquareClick_cases i s) as [->|(Hw & _ & Hth & ->)].
    { left. apply runEffects_same. }
    right.
    assert (xIsNext s = true) as Hx.
    { destruct Hg as (Hth' & Hturn & _).
      destruct (xIsNext s) eqn:Ex; [done|].
      assert (aiTurn s = true) as Ht by (by apply aiTurn_true).
      apply Hturn, Hth' in Ht. rewrite (Hth Hm) in Ht. done. }
    rewrite runEffects_new_array by (simpl; lia).
    match goal with |- context [scoreEffect ?n] =>
      destruct (effects_fields n) as (-> & _ & -> & _) end.
    simpl. by rewrite Hx.
  - intros r Hen. unfold step. simpl.
    destruct (aiTimeout_cases r s Hinv Hg Hen)
      as (_ & Hx & Hw & move & Hmove & He & ->).
    exists move. split; [done|].
    rewrite runEffects_new_array by (simpl; lia).
    match goal with |- context [scoreEffect ?n] =>
      destruct (effects_fields n) as (-> & _ & -> & _ & _ & -> & _);
      rewrite (aiTurn_xIsNext n eq_refl) end.
    done.
Qed.

Lemma reachable_round_before_win : reachable round_before_win.
Proof.
  unfold round_before_win. simpl foldl.
  repeat (apply reachable_step; [|vm_compute; lia || exact I]).
  apply reachable_init.
Qed.

Lemma reachable_round_won : reachable round_won.
Proof.
  apply reachable_step; [apply reachable_round_before_win|].
  vm_compute. lia.
Qed.

Lemma winner_unique_witness : X = X.
Proof.
  apply (winner_unique round_won reachable_round_won (0, 1, 2) (0, 1, 2) X X).
  - left.
  - left.
  - apply holds_triple. by repeat split.
  - apply holds_triple. by repeat split.
Defined.

Lemma pvc_marks_witness :
  ∃ move,
    computeAIMove (board (step init (Click 4))) O X half = Some move ∧
    board (step (step init (Click 4)) (AiTimeout half))
    = copy_set (board (step init (Click 4))) move O ∧
    xIsNext (step (step init (Click 4)) (AiTimeout half)) = true ∧
    aiThinking (step (step init (Click 4)) (AiTimeout half)) = false.
Proof.
  apply (proj2 (pvc_marks _ reachable_after_click eq_refl) half).
  vm_compute. discriminate.
Defined.

(** ** The squares and the handler *)

Lemma boardDisabled_false s :
  boardDisabled s = false →
  winner (calculateWinner (board s)) = NoWinner ∧
  (mode s = pvc → xIsNext s = true) ∧ aiThinking s = false.
Proof.
  unfold boardDisabled. rewrite !orb_false_iff, andb_false_iff.
  rewrite decided_iff, bool_decide_eq_false, negb_false_iff.
  intros [[Hw Hm] Hth]. repeat split; [done| |done].
  intros Hp. by destruct Hm.
Qed.

(** X14.  The two guards agree.  In every reachable state a square is
    disabled exactly when [handleSquareClick] would ignore a click on it. *)
Theorem squareDisabled_iff_ignored s i :
  reachable s → i < length (board s) →
  (squareDisabled s i = true ↔ step s (Click i) = s).
Proof.
  intros [_ (Hth & Hturn & _)]%reachable_game_inv Hi.
  unfold step. simpl. split.
  - intros Hd.
    destruct (handleSquareClick_cases i s) as [->|(Hw & Ht & Hth' & _)];
      [apply runEffects_same|].
    exfalso. unfold squareDisabled, boardDisabled in Hd.
    rewrite Ht, orb_false_r, (proj2 (decided_iff _) Hw), orb_false_l in Hd.
    assert (aiThinking s = true) as Hthink.
    { apply orb_true_iff in Hd as [Hd|Hd]; [|done].
      apply andb_true_iff in Hd as [Hm Hx].
      apply bool_decide_eq_true in Hm. apply negb_true_iff in Hx.
      apply Hth, Hturn, aiTurn_true. done. }
    assert (aiTurn s = true) as (Hm & _)%aiTurn_true
      by (by apply Hturn, Hth).
    rewrite (Hth' Hm) in Hthink. done.
  - intros Hsame.
    destruct (squareDisabled s i) eqn:Hd; [done|]. exfalso.
    unfold squareDisabled in Hd. apply orb_false_iff in Hd as [Hb Ht].
    apply boardDisabled_false in Hb as (Hw & Hx & Hthink).
    assert (boardId (runEffects s (handleSquareClick i s)) = boardId s)
      as Hid by (by rewrite Hsame).
    revert Hid. unfold handleSquareClick.
    rewrite (proj2 (decided_iff _) Hw), Ht, Hthink, andb_false_r. simpl.
    rewrite runEffects_new_array by (simpl; lia).
    match goal with |- context [scoreEffect ?n] =>
      destruct (effects_fields n) as (_ & -> & _) end.
    simpl. lia.
Qed.

Lemma squareDisabled_iff_ignored_witness :
  squareDisabled (step init (Click 4)) 0 = true ↔
  step (step init (Click 4)) (Click 0) = step init (Click 4).
Proof.
  apply (squareDisabled_iff_ignored _ 0 reachable_after_click).
  vm_compute. lia.
Defined.

(** A winning line has three different indices. *)
Lemma LINES_distinct l :
  l ∈ LINES → ∃ a b c, line_of l = [a; b; c] ∧ a ≠ b ∧ b ≠ c ∧ a ≠ c.
Proof.
  intros Hl. destruct l as [[a b] c]. exists a, b, c. split; [done|].
  unfold LINES in Hl. elem_cases Hl; repeat split; lia.
Qed.

(** X15.  The highlighted squares are those of the winner: with a mark as
    winner, exactly three squares are highlighted and each holds that mark;
    with a draw or no winner, no square is highlighted. *)
Theorem squareHighlight_winner s :
  match winner (calculateWinner (board s)) with
  | Won m =>
      ∃ a b c, a ≠ b ∧ b ≠ c ∧ a ≠ c ∧
               (∀ i, squareHighlight s i = true ↔ i = a ∨ i = b ∨ i = c) ∧
               (∀ i, squareHighlight s i = true →
                     board s !! i = Some (Some m))
  | _ => ∀ i, squareHighlight s i = false
  end.
Proof.
  unfold squareHighlight, calculateWinner.
  destruct (for_lines LINES (board s)) as [r|] eqn:E.
  - apply for_lines_in_LINES in E as (l & m & Hl & Hm & ->). simpl.
    destruct (LINES_distinct l Hl) as (a & b & c & Hline & Hab & Hbc & Hac).
    exists a, b, c. split; [done|]. split; [done|]. split; [done|]. split.
    + intros i. rewrite bool_decide_eq_true, Hline. split.
      * intros Hi. elem_cases Hi; auto.
      * intros [-> | [-> | ->]]; repeat constructor.
    + intros i Hi%bool_decide_eq_true. by apply Hm.
  - destruct (forallb _ (board s)); by intros i.
Qed.

(** ** The scores *)

Ltac effects_cases :=
  unfold runEffects, aiEffect, aiCleanup, scoreEffect;
  repeat (cbn [board boardId xIsNext mode scores aiThinking aiTimer
               scoreTimers];
          match goal with
          | |- context [if ?b then _ else _] => destruct b
          end);
  try reflexivity.

(** The effects do not touch the scores. *)
Lemma scores_runEffects old new : scores (runEffects old new) = scores new.
Proof. effects_cases. Qed.

Lemma scores_handle e s :
  e ≠ ScoreTimeout → e ≠ ResetScores → scores (handle e s) = scores s.
Proof.
  intros H1 H2. destruct e as [i|r| | | |m]; simpl; try done.
  - unfold handleSquareClick. by destruct (_ || _).
  - unfold aiTimeout. destruct (aiTimer s); [|done].
    by destruct (computeAIMove _ O X r).
Qed.

Lemma score_total_addScore w sc :
  score_total (addScore w sc) = score_total sc + 1.
Proof. unfold score_total. destruct w as [[|]| |]; simpl; lia. Qed.

(** X16.  The scores change only when a scoring timeout fires or the scores
    are reset.  A scoring timeout adds one to the counter of its winner
    (to the draws for a draw) and to no other; a reset of the scores puts
    all three to zero. *)
Theorem scores_step s e :
  (e ≠ ScoreTimeout → e ≠ ResetScores → scores (step s e) = scores s) ∧
  (∀ w rest, scoreTimers s = w :: rest →
     scores (step s ScoreTimeout) = addScore w (scores s) ∧
     score_total (scores (step s ScoreTimeout))
     = score_total (scores s) + 1) ∧
  scores (step s ResetScores) = noScores.
Proof.
  unfold step. rewrite !scores_runEffects. split; [apply scores_handle|].
  split; [|done].
  intros w rest Hq. simpl. unfold scoreTimeout. rewrite Hq. simpl.
  split; [done|apply score_total_addScore].
Qed.

Lemma scores_step_witness :
  scores (step round_won ScoreTimeout)
  = {| score_x := 1; score_o := 0; score_draws := 0 |} ∧
  scores (step round_won (Click 8)) = noScores.
Proof.
  destruct (scores_step round_won (Click 8)) as (Hsame & Hfire & _).
  split.
  - apply (Hfire (Won X) []). reflexivity.
  - apply Hsame; discriminate.
Defined.

(** ** The resets *)

Lemma reset_fields s new :
  board new = initialBoard → xIsNext new = true → aiThinking new = false →
  boardId new ≠ boardId s →
  let s' := runEffects s new in
  board s' = initialBoard ∧ xIsNext s' = true ∧ aiThinking s' = false ∧
  aiTimer s' = None ∧ mode s' = mode new ∧ scores s' = scores new ∧
  scoreTimers s' = scoreTimers new.
Proof.
  intros Hb Hx Hth Hid. cbv zeta. rewrite (runEffects_new_array _ _ Hid).
  destruct (effects_fields new)
    as (Eb & _ & Ex & Em & Esc & Eth & Etm & Est).
  rewrite Eb, Ex, Em, Esc, Eth, Etm, Est, (aiTurn_xIsNext new Hx), Hb, Hx, Hth.
  change (decided (winner (calculateWinner initialBoard))) with false.
  by rewrite app_nil_r.
Qed.

(** X17.  A new round, a reset of the scores and a change of mode all start
    a round: whatever the state, the board is empty, it is X's turn, the
    computer is not thinking and its timeout, if one was pending, is
    cleared.  The pending scoring timeouts stay; the scores stay but for
    the reset of the scores, and the mode stays but for the change of
    mode. *)
Theorem reset_starts_round s e :
  is_reset e = true →
  let s' := step s e in
  board s' = initialBoard ∧ xIsNext s' = true ∧ aiThinking s' = false ∧
  aiTimer s' = None ∧ scoreTimers s' = scoreTimers s ∧
  mode s' = (match e with SetMode m => m | _ => mode s end) ∧
  scores s' = (match e with ResetScores => noScores | _ => scores s end).
Proof.
  intros He. cbv zeta. unfold step.
  destruct e as [i|r| | | |m]; try discriminate He; simpl handle.
  - destruct (reset_fields s (newMatch s))
      as (-> & -> & -> & -> & -> & -> & ->); simpl; try done; lia.
  - destruct (reset_fields s (resetScores s))
      as (-> & -> & -> & -> & -> & -> & ->); simpl; try done; lia.
  - destruct (reset_fields s (changeMode m s))
      as (-> & -> & -> & -> & -> & -> & ->); simpl; try done; lia.
Qed.

Lemma reset_starts_round_witness :
  let s' := step (step init (Click 4)) NewRound in
  board s' = initialBoard ∧ xIsNext s' = true ∧ aiThinking s' = false ∧
  aiTimer s' = None ∧ scoreTimers s' = scoreTimers (step init (Click 4)) ∧
  mode s' = mode (step init (Click 4)) ∧
  scores s' = scores (step init (Click 4)).
Proof. apply (reset_starts_round (step init (Click 4)) NewRound eq_refl). Defined.

(** X18.  A scoring timeout is not cleared by a reset: when one is pending
    and the scores are reset, the timeout that fires next scores its winner
    on the new scores, which are then not all zero. *)
Theorem scoring_survives_reset s w rest :
  scoreTimers s = w :: rest →
  scores (step (step s ResetScores) ScoreTimeout) = addScore w noScores ∧
  score_total (scores (step (step s ResetScores) ScoreTimeout)) = 1.
Proof.
  intros Hq.
  assert (scoreTimers (step s ResetScores) = w :: rest ∧
          scores (step s ResetScores) = noScores) as [Hq' Hsc].
  { unfold step. simpl handle.
    destruct (reset_fields s (resetScores s))
      as (_ & _ & _ & _ & _ & -> & ->); simpl; try done; lia. }
  assert (scores (step (step s ResetScores) ScoreTimeout)
          = addScore w noScores) as ->.
  { unfold step at 1. rewrite scores_runEffects. simpl.
    unfold scoreTimeout. by rewrite Hq', Hsc. }
  split; [done|]. by rewrite score_total_addScore.
Qed.

Lemma scoring_survives_reset_witness :
  scores (step (step round_won ResetScores) ScoreTimeout)
  = {| score_x := 1; score_o := 0; score_draws := 0 |}.
Proof.
  apply (scoring_survives_reset round_won (Won X) []). reflexivity.
Defined.

(** ** One score for a round *)

Lemma scoreTimers_new_array old new :
  boardId new ≠ boardId old →
  scoreTimers (runEffects old new)
  = scoreTimers new ++
    (if decided (winner (calculateWinner (board new)))
     then [winner (calculateWinner (board new))] else []).
Proof.
  intros Hid. rewrite (runEffects_new_array _ _ Hid).
  by destruct (effects_fields new) as (_ & _ & _ & _ & _ & _ & _ & ->).
Qed.

(** X19.  A round is scored once, when it is decided.  In every reachable
    state, an event other than a scoring timeout queues a scoring timeout
    exactly when it takes the board from undecided to decided, and the
    timeout carries the winner of the new board. *)
Theorem scored_when_decided s e :
  reachable s → enabled s e → e ≠ ScoreTimeout →
  scoreTimers (step s e)
  = scoreTimers s ++
    (if negb (decided (winner (calculateWinner (board s))))
        && decided (winner (calculateWinner (board (step s e))))
     then [winner (calculateWinner (board (step s e)))] else []).
Proof.
  intros [Hinv Hg]%reachable_game_inv Hen Hne.
  unfold step. rewrite board_runEffects.
  destruct e as [i|r| | | |m]; simpl handle; try done.
  - destruct (handleSquareClick_cases i s) as [->|(Hw & _ & _ & ->)].
    + rewrite runEffects_same.
      destruct (decided _); simpl; by rewrite app_nil_r.
    + rewrite scoreTimers_new_array by (simpl; lia). simpl.
      by rewrite (proj2 (decided_iff _) Hw).
  - destruct (aiTimeout_cases r s Hinv Hg Hen)
      as (_ & _ & Hw & move & _ & _ & ->).
    rewrite scoreTimers_new_array by (simpl; lia). simpl.
    by rewrite (proj2 (decided_iff _) Hw).
  - rewrite scoreTimers_new_array by (simpl; lia). simpl.
    change (decided (winner (calculateWinner initialBoard))) with false.
    by rewrite andb_false_r.
  - rewrite scoreTimers_new_array by (simpl; lia). simpl.
    change (decided (winner (calculateWinner initialBoard))) with false.
    by rewrite andb_false_r.
  - rewrite scoreTimers_new_array by (simpl; lia). simpl.
    change (decided (winner (calculateWinner initialBoard))) with false.
    by rewrite andb_false_r.
Qed.

Lemma scored_when_decided_witness :
  scoreTimers (step round_before_win (Click 2)) = [Won X].
Proof.
  etrans.
  - apply (scored_when_decided round_before_win (Click 2)
             reachable_round_before_win).
    + vm_compute. lia.
    + discriminate.
  - vm_compute. reflexivity.
Defined.

(** ** The computer at play *)

Lemma reachable_round_computer_can_win : reachable round_computer_can_win.
Proof.
  unfold round_computer_can_win. simpl foldl.
  repeat (apply reachable_step;
          [|vm_compute; first [lia | discriminate | exact I]]).
  apply reachable_init.
Qed.

(** X20.  The computer wins when it can.  In every reachable state, when the
    computer's timeout fires on a board where O has an immediate win, the
    board after it has O as winner and a scoring timeout for O is queued. *)
Theorem computer_takes_win s r :
  reachable s → enabled s (AiTimeout r) →
  (∃ i, immediate_win (board s) O i) →
  winner (calculateWinner (board (step s (AiTimeout r)))) = Won O ∧
  scoreTimers (step s (AiTimeout r)) = scoreTimers s ++ [Won O].
Proof.
  intros [Hinv Hg]%reachable_game_inv Hen [i0 Hi0].
  destruct (aiTimeout_cases r s Hinv Hg Hen)
    as (_ & _ & _ & move & Hmove & _ & Hstep).
  assert (winner (calculateWinner (copy_set (board s) move O)) = Won O)
    as Hwin.
  { destruct (find (wins_with (board s) O) (availableMoves (board s)))
      as [i|] eqn:E.
    - rewrite (computeAIMove_win _ _ _ _ _ E) in Hmove.
      injection Hmove as <-. by apply find_win_Some in E as [[_ ?] _].
    - destruct (proj1 (find_win_None (board s) O) E i0 Hi0). }
  unfold step. simpl handle. rewrite Hstep.
  rewrite board_runEffects, scoreTimers_new_array by (simpl; lia).
  simpl. by rewrite Hwin.
Qed.

Lemma computer_takes_win_witness :
  winner (calculateWinner
            (board (step round_computer_can_win (AiTimeout half))))
  = Won O ∧
  scoreTimers (step round_computer_can_win (AiTimeout half))
  = scoreTimers round_computer_can_win ++ [Won O].
Proof.
  apply (computer_takes_win round_computer_can_win half
           reachable_round_computer_can_win).
  - vm_compute. discriminate.
  - exists 6. split; vm_compute; reflexivity.
Defined.
